(** * Standalone SQLite storage: a shallow embedding of [standalone-sqlite.js]

    The development follows the class [StandaloneSQLiteStorage]:

    - strings are sequences of 7-bit ASCII characters, which is what a
      hardware address and the table name derived from it consist of;
      the properties are stated for keys that are hardware addresses,
      whose table names the engine reads as the plain name of a table
      (another text put into a statement could be a subquery, a
      qualified name or the name of [biocv_metadata] itself);
    - JavaScript values are the primitive values a payload field can
      hold, numbers being rationals together with the infinities and
      [NaN];
    - the database is a finite map from table names to tables, the
      metadata table [biocv_metadata] a list of rows in rowid order, and
      [createdTables] a finite set of names;
    - every method is a function from the state of the store (and the
      reading of the clock when it is called) to a result, which is
      either a value or the error the promise is rejected with, and the
      state the call leaves behind. *)

From Stdlib Require Import ZArith QArith Ascii String List Sorted Permutation Lia.
From stdpp Require Import gmap strings list fin_maps.

Local Open Scope string_scope.
Local Open Scope Z_scope.

(** ** Strings *)

Module Str.

(** [String.prototype.toUpperCase] on one ASCII character: the letters
    a to z (codes 97 to 122) move down by 32, every other character is
    kept. *)
Definition upper_char (c : ascii) : ascii :=
  let n := N_of_ascii c in
  if ((97 <=? n) && (n <=? 122))%N then ascii_of_N (n - 32) else c.

(** [String.prototype.toLowerCase] on one ASCII character. *)
Definition lower_char (c : ascii) : ascii :=
  let n := N_of_ascii c in
  if ((65 <=? n) && (n <=? 90))%N then ascii_of_N (n + 32) else c.

Fixpoint map_chars (f : ascii -> ascii) (s : string) : string :=
  match s with
  | EmptyString => EmptyString
  | String c s' => String (f c) (map_chars f s')
  end.

Definition toUpperCase (s : string) : string := map_chars upper_char s.
Definition toLowerCase (s : string) : string := map_chars lower_char s.

(** [s.replace(/x/g, y)] for single characters [x] and [y]. *)
Definition replace_char (x y c : ascii) : ascii :=
  if Ascii.eqb c x then y else c.

Definition replace_all (x y : ascii) (s : string) : string :=
  map_chars (replace_char x y) s.

Fixpoint all_chars (p : ascii -> bool) (s : string) : bool :=
  match s with
  | EmptyString => true
  | String c s' => p c && all_chars p s'
  end.

(** A character of 7-bit ASCII. *)
Definition is_ascii7 (c : ascii) : bool := (N_of_ascii c <? 128)%N.

(** The 256 characters. *)
Definition all_ascii : list ascii := List.map ascii_of_nat (List.seq 0 256).

End Str.

(** ** Table names *)

(** [sanitizeMacForTableName(mac)]:
    [mac.replace(/:/g, '_').toUpperCase()]. *)
Definition sanitizeMacForTableName (mac : string) : string :=
  Str.toUpperCase (Str.replace_all ":" "_" mac).

(** A key as the message source delivers it: a hardware address written
    as six groups of two hexadecimal digits, either case, separated by
    colons. *)
Definition is_hex_digit (c : ascii) : bool :=
  let n := N_of_ascii c in
  (((48 <=? n) && (n <=? 57)) || ((65 <=? n) && (n <=? 70))
   || ((97 <=? n) && (n <=? 102)))%N.

Fixpoint hex_groups (n : nat) (s : string) : bool :=
  match n, s with
  | 1%nat, String a (String b EmptyString) => is_hex_digit a && is_hex_digit b
  | S n', String a (String b (String c rest)) =>
      is_hex_digit a && is_hex_digit b && Ascii.eqb c ":" && hex_groups n' rest
  | _, _ => false
  end.

Definition valid_key (k : string) : bool := hex_groups 6 k.

(** Two keys are written alike when they have the same length and, place
    by place, the same character up to the case of a letter and up to
    the choice between colon and underscore as separator. *)
Definition is_sep (c : ascii) : bool := Ascii.eqb c ":" || Ascii.eqb c "_".

Definition alike_char (c1 c2 : ascii) : bool :=
  Ascii.eqb (Str.upper_char c1) (Str.upper_char c2) || (is_sep c1 && is_sep c2).

Fixpoint alike (k1 k2 : string) : bool :=
  match k1, k2 with
  | EmptyString, EmptyString => true
  | String c1 r1, String c2 r2 => alike_char c1 c2 && alike r1 r2
  | _, _ => false
  end.

(** ** JavaScript values *)

(** A number: a rational (this covers the integers and the decimal
    readings a message carries; the two zeros are not told apart),
    an infinity, or [NaN]. *)
Inductive number : Type :=
  | NaN
  | Inf (negative : bool)
  | Num (q : Q).

(** The primitive values a payload field, an option or a bound SQL
    parameter can hold.  [JNull] bound to a column is SQL [NULL]. *)
Inductive jsval : Type :=
  | JUndefined
  | JNull
  | JBool (b : bool)
  | JNum (n : number)
  | JStr (s : string).

(** An object used as a record of fields ([data], [config]): reading a
    field that the object does not have gives [undefined]. *)
Abbreviation payload := (gmap string jsval).

Definition field (o : payload) (f : string) : jsval :=
  match o !! f with
  | Some v => v
  | None => JUndefined
  end.

(** ToBoolean. *)
Definition truthy (v : jsval) : bool :=
  match v with
  | JUndefined | JNull => false
  | JBool b => b
  | JNum NaN => false
  | JNum (Inf _) => true
  | JNum (Num q) => negb (Qnum q =? 0)
  | JStr s => negb (String.eqb s EmptyString)
  end.

(** [a || b]. *)
Definition js_or (a b : jsval) : jsval := if truthy a then a else b.

Declare Scope js_scope.
Delimit Scope js_scope with js.
Infix "||" := js_or : js_scope.

(** What the host gives the program and the source does not contain: the
    reading of a text as a number by [parseFloat] and by [ToNumber], the
    engine's test that a text looks like a number (which decides how a
    bound text is compared with a [DATETIME] column), the names the
    engine's parser takes as the bare identifier of a table of its own
    (it refuses, among others, a name that starts with a digit), the
    offset [LocalTZA(t, isUTC)] of the time zone the process runs in,
    in milliseconds, and the order the engine gives to two rows that an
    [ORDER BY] does not tell apart: it depends on the plan the engine
    takes for the statement, so [tie_first] is asked with the three
    filters of the statement and the rowids of the two rows. *)
Record host : Type := {
  parseFloat_text : string -> number;
  toNumber_text : string -> number;
  numeric_text : string -> bool;
  accepts : string -> bool;
  localTZA : Z -> bool -> Z;
  tie_first : jsval -> jsval -> jsval -> Z -> Z -> bool
}.

(** [LocalTime(t)] and [UTC(t)] of the language specification. *)
Definition LocalTime (h : host) (t : Z) : Z := t + localTZA h t true.
Definition UTC (h : host) (t : Z) : Z := t - localTZA h t false.

(** ** Time

    The clock is read in milliseconds since the epoch.  The calendar
    fields below are those of a time value; the fields of a local time
    are those of [LocalTime h t]. *)

Module Time.

Definition msPerDay : Z := 86400000.

(** Year, month and day of a day number counted from 1970-01-01
    (proleptic Gregorian calendar). *)
Definition civil_from_days (z : Z) : Z * Z * Z :=
  let z := z + 719468 in
  let era := z / 146097 in
  let doe := z - era * 146097 in
  let yoe := (doe - doe / 1460 + doe / 36524 - doe / 146096) / 365 in
  let doy := doe - (365 * yoe + yoe / 4 - yoe / 100) in
  let mp := (5 * doy + 2) / 153 in
  let d := doy - (153 * mp + 2) / 5 + 1 in
  let m := if mp <? 10 then mp + 3 else mp - 9 in
  let y := yoe + era * 400 + (if m <=? 2 then 1 else 0) in
  (y, m, d).

Definition digit (n : Z) : ascii := ascii_of_N (48 + Z.to_N (n mod 10)).

(** The last [w] decimal digits of [n], padded with zeros. *)
Fixpoint digits (w : nat) (n : Z) : string :=
  match w with
  | O => EmptyString
  | S w' => digits w' (n / 10) ++ String (digit n) EmptyString
  end.

Definition date_text (day : Z) : string :=
  let '(y, m, d) := civil_from_days day in
  digits 4 y ++ "-" ++ digits 2 m ++ "-" ++ digits 2 d.

Definition clock_text (secs : Z) : string :=
  digits 2 (secs / 3600) ++ ":" ++ digits 2 (secs / 60 mod 60)
  ++ ":" ++ digits 2 (secs mod 60).

(** The text of [CURRENT_TIMESTAMP] at [s] seconds since the epoch:
    [YYYY-MM-DD HH:MM:SS] in UTC, for the years 0 to 9999. *)
Definition sqlite_datetime (s : Z) : string :=
  date_text (s / 86400) ++ " " ++ clock_text (s mod 86400).

(** [DateFromTime]: the day of the month. *)
Definition getDate (ms : Z) : Z :=
  let '(_, _, d) := civil_from_days (ms / msPerDay) in d.

(** A time value is valid within 8.64e15 ms of the epoch (TimeClip). *)
Definition time_clip (ms : Z) : option Z :=
  if Z.abs ms <=? 8640000000000000 then Some ms else None.

(** The date [d.setDate(x)] makes of the local time [ms], before it is
    taken back to UTC: the day of the month becomes the integer part of
    [x], month and year following; [None] when [x] is not finite. *)
Definition setDate (ms : Z) (x : number) : option Z :=
  match x with
  | Num q =>
      let dt := Z.quot (Qnum q) (Z.pos (Qden q)) in
      Some (ms + (dt - getDate ms) * msPerDay)
  | _ => None
  end.

(** [Date.prototype.toISOString] of a valid time value:
    [YYYY-MM-DDTHH:MM:SS.sssZ], the year with a sign and six digits
    outside 0..9999. *)
Definition toISOString (ms : Z) : string :=
  let '(y, m, d) := civil_from_days (ms / msPerDay) in
  let year :=
    if (0 <=? y) && (y <=? 9999) then digits 4 y
    else (if y <? 0 then "-" else "+") ++ digits 6 (Z.abs y) in
  let t := ms mod msPerDay in
  year ++ "-" ++ digits 2 m ++ "-" ++ digits 2 d ++ "T"
  ++ clock_text (t / 1000) ++ "." ++ digits 3 (t mod 1000) ++ "Z".

End Time.

(** ToNumber. *)
Definition toNumber (h : host) (v : jsval) : number :=
  match v with
  | JUndefined => NaN
  | JNull => Num 0
  | JBool b => Num (if b then 1 else 0)
  | JNum n => n
  | JStr s => toNumber_text h s
  end.

(** [parseFloat(v)]: the argument is turned into text and the longest
    decimal prefix is read.  A number reads back as itself; the texts of
    [undefined], [null], [true] and [false] have no decimal prefix. *)
Definition parseFloat (h : host) (v : jsval) : number :=
  match v with
  | JNum n => n
  | JStr s => parseFloat_text h s
  | _ => NaN
  end.

(** [n - x] for an integer [n]. *)
Definition int_minus (n : Z) (x : number) : number :=
  match x with
  | NaN => NaN
  | Inf neg => Inf (negb neg)
  | Num q => Num (inject_Z n - q)
  end.

(** ** The database *)

(** The value of the [data_type] column: the four literals the
    [INSERT] statements of the store bind to it. *)
Inductive kind : Type := Sensor | Battery | Ant | Environment.

Definition kind_name (k : kind) : string :=
  match k with
  | Sensor => "sensor"
  | Battery => "battery"
  | Ant => "ant"
  | Environment => "environment"
  end.

Definition kind_eqb (a b : kind) : bool :=
  match a, b with
  | Sensor, Sensor | Battery, Battery | Ant, Ant
  | Environment, Environment => true
  | _, _ => false
  end.

(** A row of a data table.  The per-device tables and the environment
    table have different columns; a column the table does not have reads
    as [undefined] in the record a query returns.  [timestamp] and
    [created_at] are never bound by an [INSERT]: they hold
    [CURRENT_TIMESTAMP], kept here as the second it was taken at (its
    text is [Time.sqlite_datetime]).  [raw_data] holds the JSON text of
    an object, kept here as that object. *)
Record row : Type := {
  rowid : Z;
  data_type : kind;
  mac_address : jsval;
  timestamp : Z;
  rssi : jsval;
  temperature : jsval;
  battery_percentage : jsval;
  ant_mac : jsval;
  distance : jsval;
  weight : jsval;
  humidity : jsval;
  raw_data : payload;
  created_at : Z
}.

Inductive schema : Type := DeviceSchema | EnvironmentSchema.

(** A data table: its columns, the largest rowid it has ever given out
    ([AUTOINCREMENT]) and its rows in rowid order. *)
Record table : Type := {
  columns : schema;
  last_id : Z;
  rows : list row
}.

(** A row of [biocv_metadata].  [data_types] holds the JSON text of an
    array of strings, kept here as the array. *)
Record meta_row : Type := {
  m_id : Z;
  table_name : string;
  m_mac_address : string;
  m_created_at : Z;
  last_updated : Z;
  row_count : Z;
  data_types : list kind
}.

(** The state of a [StandaloneSQLiteStorage] and of the database file it
    is connected to.  The engine looks a table up by its name without
    regard to the case of letters, so [tables] is keyed by the name in
    upper case.  [biocv_metadata] is created by [initialize] before any
    other method can run; its rows are in rowid order. *)
Record store : Type := {
  config : payload;
  isConnected : bool;
  createdTables : gset string;
  tables : gmap string table;
  meta_last_id : Z;
  metadata : list meta_row
}.

Definition table_key (name : string) : string := Str.toUpperCase name.

Definition set_tables (st : store) (ts : gmap string table) : store :=
  {| config := config st; isConnected := isConnected st;
     createdTables := createdTables st; tables := ts;
     meta_last_id := meta_last_id st; metadata := metadata st |}.

Definition set_metadata (st : store) (n : Z) (ms : list meta_row) : store :=
  {| config := config st; isConnected := isConnected st;
     createdTables := createdTables st; tables := tables st;
     meta_last_id := n; metadata := ms |}.

Definition set_createdTables (st : store) (s : gset string) : store :=
  {| config := config st; isConnected := isConnected st;
     createdTables := s; tables := tables st;
     meta_last_id := meta_last_id st; metadata := metadata st |}.

Definition set_isConnected (st : store) (b : bool) : store :=
  {| config := config st; isConnected := b;
     createdTables := createdTables st; tables := tables st;
     meta_last_id := meta_last_id st; metadata := metadata st |}.

(** ** Results *)

(** What a method's promise is rejected with. *)
Inductive error : Type :=
  | NotConnected                        (* Error('Database not connected') *)
  | SyntaxError (name : string)         (* the engine refuses the name *)
  | NoSuchTable (name : string)
  | NoSuchColumn (name : string)        (* the table has other columns *)
  | InvalidTime.                        (* RangeError of toISOString *)

Inductive result (A : Type) : Type :=
  | Ok (a : A)
  | Err (e : error).
Arguments Ok {A} a.
Arguments Err {A} e.

(** A method body: it reads and changes the state, and either returns
    or throws.  What was changed before a throw stays changed. *)
Definition M (A : Type) : Type := store -> result A * store.

Definition ret {A} (a : A) : M A := fun st => (Ok a, st).
Definition throw {A} (e : error) : M A := fun st => (Err e, st).
Definition bind {A B} (m : M A) (f : A -> M B) : M B :=
  fun st =>
    match m st with
    | (Ok a, st') => f a st'
    | (Err e, st') => (Err e, st')
    end.
Definition get_state : M store := fun st => (Ok st, st).
Definition put_state (st' : store) : M unit := fun _ => (Ok tt, st').

Declare Scope m_scope.
Delimit Scope m_scope with M.
Notation "x <- m ;; k" := (bind m (fun x => k))
  (at level 100, m at next level, right associativity) : m_scope.
Notation "m ;;; k" := (bind m (fun _ => k))
  (at level 100, right associativity) : m_scope.

(** [for (const x of xs) { body }]. *)
Fixpoint for_each {A} (xs : list A) (body : A -> M unit) : M unit :=
  match xs with
  | [] => ret tt
  | x :: xs' => bind (body x) (fun _ => for_each xs' body)
  end.

(** ** Ordering and truncation *)

(** A stable sort: [x] is put before the first element it may precede,
    so that elements which compare equal keep their order.  This is the
    result of [Array.prototype.sort]. *)
Fixpoint insert_sorted {A} (precedes : A -> A -> bool) (x : A) (l : list A) : list A :=
  match l with
  | [] => [x]
  | y :: l' =>
      if precedes x y then x :: y :: l' else y :: insert_sorted precedes x l'
  end.

Fixpoint stable_sort {A} (precedes : A -> A -> bool) (l : list A) : list A :=
  match l with
  | [] => []
  | x :: l' => insert_sorted precedes x (stable_sort precedes l')
  end.

(** [LIMIT n]: a negative [n] is no limit. *)
Definition sql_limit {A} (n : Z) (l : list A) : list A :=
  if n <? 0 then l else firstn (Z.to_nat n) l.

(** [l.slice(0, n)]: a negative [n] counts from the end. *)
Definition slice0 {A} (n : Z) (l : list A) : list A :=
  if n <? 0 then firstn (Z.to_nat (Z.of_nat (List.length l) + n)) l
  else firstn (Z.to_nat n) l.

(** ** Query options *)

(** [{ dataType, startDate, endDate, limit }]; [limit] is an integer
    when it is given. *)
Record options : Type := {
  dataType : jsval;
  startDate : jsval;
  endDate : jsval;
  limit : option Z
}.

Definition no_options : options :=
  {| dataType := JUndefined; startDate := JUndefined;
     endDate := JUndefined; limit := None |}.

Definition strict_eq_str (v : jsval) (s : string) : bool :=
  match v with
  | JStr s' => String.eqb s' s
  | _ => false
  end.

Definition strict_eq_false (v : jsval) : bool :=
  match v with
  | JBool false => true
  | _ => false
  end.

(** [data_type = ?]: a bound text matches the literal it spells; a
    bound number or boolean is compared as its text, which spells
    none. *)
Definition data_type_is (r : row) (v : jsval) : bool :=
  strict_eq_str v (kind_name (data_type r)).

Definition in_text_order (c : comparison) (want_ge : bool) : bool :=
  match c with
  | Eq => true
  | Lt => negb want_ge
  | Gt => want_ge
  end.

(** [ORDER BY timestamp DESC]: by the text of the column, largest
    first; among rows with the same text, as the engine has it. *)
Definition text_desc (h : host) (o : options) (a b : row) : bool :=
  let ta := Time.sqlite_datetime (timestamp a) in
  let tb := Time.sqlite_datetime (timestamp b) in
  if String.ltb tb ta then true
  else if String.ltb ta tb then false
  else tie_first h (dataType o) (startDate o) (endDate o) (rowid a) (rowid b).

Definition order_by_timestamp_desc (h : host) (o : options) (l : list row) : list row :=
  stable_sort (text_desc h o) l.

(** [new Date(r.timestamp)] as a number: the text, which has no zone,
    is read as a local time. *)
Definition date_of (h : host) (r : row) : Z := UTC h (timestamp r * 1000).

(** The comparator [(a, b) => new Date(b.timestamp) - new Date(a.timestamp)]
    and the order it asks for: [a] stays before [b] unless the
    comparator is positive. *)
Definition comparator (h : host) (a b : row) : Z := date_of h b - date_of h a.

Definition newest_first (h : host) (a b : row) : bool := comparator h a b <=? 0.

(** ** SQL statements *)

Section Storage.

Variable h : host.

Local Open Scope m_scope.

(** A statement that names a table by interpolation is parsed first:
    the engine has to accept the name.  This is what the engine does
    with a text that has the form of a name, such as the table name of
    a hardware address; it is not followed for a text of another form
    (a subquery in parentheses, a name qualified by a schema) nor for
    the name of [biocv_metadata], which is not among [tables]. *)
Definition on_table {A} (name : string) (stmt : M A) : M A :=
  if accepts h name then stmt else throw (SyntaxError name).

(** [CREATE TABLE IF NOT EXISTS name (...)].  The indexes the store
    creates next are on columns both kinds of table have, and are not
    kept in the state. *)
Definition create_table_if_not_exists (name : string) (c : schema) : M unit :=
  fun st =>
    match tables st !! table_key name with
    | Some _ => (Ok tt, st)
    | None =>
        (Ok tt, set_tables st
           (<[table_key name := {| columns := c; last_id := 0; rows := [] |}]>
              (tables st)))
    end.

Definition schema_eqb (a b : schema) : bool :=
  match a, b with
  | DeviceSchema, DeviceSchema | EnvironmentSchema, EnvironmentSchema => true
  | _, _ => false
  end.

(** [INSERT INTO name (...) VALUES (...)], the columns listed being
    those of schema [c]; [mk] builds the row from its rowid.  The row
    holds the values as they were bound, which is what the engine keeps
    of a number and of [NULL] in a numeric column and of a text in a
    text column; a text or a boolean bound to a numeric column is
    converted by the engine, which is not followed here. *)
Definition insert_into (name : string) (c : schema) (mk : Z -> row) : M unit :=
  fun st =>
    match tables st !! table_key name with
    | None => (Err (NoSuchTable name), st)
    | Some t =>
        if schema_eqb (columns t) c then
          (Ok tt, set_tables st
             (<[table_key name :=
                  {| columns := columns t; last_id := last_id t + 1;
                     rows := rows t ++ [mk (last_id t + 1)] |}]> (tables st)))
        else (Err (NoSuchColumn name), st)
    end.

(** [SELECT * FROM name WHERE p ORDER BY timestamp DESC], for the
    filters [o] of the statement. *)
Definition select_from (name : string) (o : options) (p : row -> bool)
    : M (list row) :=
  fun st =>
    match tables st !! table_key name with
    | None => (Err (NoSuchTable name), st)
    | Some t => (Ok (order_by_timestamp_desc h o (List.filter p (rows t))), st)
    end.

(** [SELECT COUNT( * ) as count FROM name]. *)
Definition count_rows (name : string) : M Z :=
  fun st =>
    match tables st !! table_key name with
    | None => (Err (NoSuchTable name), st)
    | Some t => (Ok (Z.of_nat (List.length (rows t))), st)
    end.

(** [created_at < ?] for a bound ISO text: the column holds a text, and
    the two are compared byte by byte. *)
Definition created_before (cutoff : string) (r : row) : bool :=
  String.ltb (Time.sqlite_datetime (created_at r)) cutoff.

(** [DELETE FROM name WHERE created_at < ?]; the result is
    [this.changes], the number of rows deleted. *)
Definition delete_older (name : string) (cutoff : string) : M Z :=
  fun st =>
    match tables st !! table_key name with
    | None => (Err (NoSuchTable name), st)
    | Some t =>
        let kept := List.filter (fun r => negb (created_before cutoff r)) (rows t) in
        let gone := List.filter (created_before cutoff) (rows t) in
        (Ok (Z.of_nat (List.length gone)),
         set_tables st
           (<[table_key name :=
                {| columns := columns t; last_id := last_id t; rows := kept |}]>
              (tables st)))
    end.

(** [DROP TABLE IF EXISTS name]. *)
Definition drop_table_if_exists (name : string) : M unit :=
  fun st => (Ok tt, set_tables st (delete (table_key name) (tables st))).

Definition named (name : string) (m : meta_row) : bool :=
  String.eqb (table_name m) name.

(** [INSERT OR IGNORE INTO biocv_metadata (table_name, mac_address)
    VALUES (?, ?)]: [table_name] is [UNIQUE].  The engine takes the next
    rowid before it meets the conflict, and does not give it back. *)
Definition insert_or_ignore_metadata (name mac : string) (now_s : Z) : M unit :=
  fun st =>
    if existsb (named name) (metadata st)
    then (Ok tt, set_metadata st (meta_last_id st + 1) (metadata st))
    else
      (Ok tt, set_metadata st (meta_last_id st + 1)
         (metadata st ++
            [{| m_id := meta_last_id st + 1; table_name := name;
                m_mac_address := mac; m_created_at := now_s;
                last_updated := now_s; row_count := 0; data_types := [] |}])).

(** [UPDATE biocv_metadata SET row_count = ?, data_types = ?,
    last_updated = CURRENT_TIMESTAMP WHERE table_name = ?]. *)
Definition update_metadata (name : string) (count : Z) (types : list kind)
    (now_s : Z) : M unit :=
  fun st =>
    (Ok tt, set_metadata st (meta_last_id st)
       (map (fun m =>
               if named name m then
                 {| m_id := m_id m; table_name := table_name m;
                    m_mac_address := m_mac_address m;
                    m_created_at := m_created_at m;
                    last_updated := now_s; row_count := count;
                    data_types := types |}
               else m) (metadata st))).

(** [DELETE FROM biocv_metadata WHERE table_name = ?]. *)
Definition delete_metadata (name : string) : M unit :=
  fun st =>
    (Ok tt, set_metadata st (meta_last_id st)
       (List.filter (fun m => negb (named name m)) (metadata st))).

(** [timestamp >= ?] and [timestamp <= ?].  The column holds a text.  A
    bound text that looks like a number, a bound number and a bound
    boolean are numbers to the engine, and every number sorts before
    every text; another bound text is compared byte by byte. *)
Definition timestamp_cmp (r : row) (v : jsval) : comparison :=
  match v with
  | JStr s =>
      if numeric_text h s then Gt
      else String.compare (Time.sqlite_datetime (timestamp r)) s
  | _ => Gt
  end.

(** The [WHERE] clause [queryData] and [queryAllData] both build. *)
Definition matches (o : options) (r : row) : bool :=
  (if truthy (dataType o) && negb (strict_eq_str (dataType o) "all")
   then data_type_is r (dataType o) else true)
  && (if truthy (startDate o)
      then in_text_order (timestamp_cmp r (startDate o)) true else true)
  && (if truthy (endDate o)
      then in_text_order (timestamp_cmp r (endDate o)) false else true).

(** ** The methods of [StandaloneSQLiteStorage] *)

(** [if (!this.isConnected) throw new Error('Database not connected')]. *)
Definition require_connected : M unit :=
  st <- get_state ;;
  if isConnected st then ret tt else throw NotConnected.

(** [updateMetadata(tableName, mac, dataType = null)]; [mac] is not
    used by the body. *)
Definition updateMetadata (now : Z) (tableName : string)
    (dataType : option kind) : M unit :=
  st <- get_state ;;
  let current := List.find (named tableName) (metadata st) in
  let dataTypes :=
    match current with
    | Some m => data_types m
    | None => []
    end in
  let dataTypes :=
    match dataType with
    | Some k =>
        if existsb (kind_eqb k) dataTypes then dataTypes
        else (dataTypes ++ [k])%list
    | None => dataTypes
    end in
  count <- on_table tableName (count_rows tableName) ;;
  update_metadata tableName count dataTypes (now / 1000).

(** [createTableForMac(mac)], for a key whose table name is not that of
    [biocv_metadata]. *)
Definition createTableForMac (now : Z) (mac : string) : M string :=
  let tableName := sanitizeMacForTableName mac in
  st <- get_state ;;
  if decide (tableName ∈ createdTables st) then ret tableName
  else
    on_table tableName (create_table_if_not_exists tableName DeviceSchema) ;;;
    insert_or_ignore_metadata tableName mac (now / 1000) ;;;
    (st' <- get_state ;;
     put_state (set_createdTables st' ({[tableName]} ∪ createdTables st'))) ;;;
    ret tableName.

(** A row of a per-device table: the columns an [INSERT] does not list
    are [NULL], [humidity] is not a column. *)
Definition device_row (now : Z) (k : kind) (mac : string)
    (rssi' temperature' battery' ant_mac' distance' weight' : jsval)
    (raw : payload) (i : Z) : row :=
  {| rowid := i; data_type := k; mac_address := JStr mac;
     timestamp := now / 1000; rssi := rssi'; temperature := temperature';
     battery_percentage := battery'; ant_mac := ant_mac';
     distance := distance'; weight := weight'; humidity := JUndefined;
     raw_data := raw; created_at := now / 1000 |}.

(** A row of [ENVIRONMENT_DATA]. *)
Definition environment_row (now : Z) (temperature' humidity' : jsval)
    (raw : payload) (i : Z) : row :=
  {| rowid := i; data_type := Environment; mac_address := JUndefined;
     timestamp := now / 1000; rssi := JUndefined; temperature := temperature';
     battery_percentage := JUndefined; ant_mac := JUndefined;
     distance := JUndefined; weight := JUndefined; humidity := humidity';
     raw_data := raw; created_at := now / 1000 |}.

(** [storeSensorData(mac, data)]. *)
Definition storeSensorData (now : Z) (mac : string) (data : payload) : M unit :=
  require_connected ;;;
  tableName <- createTableForMac now mac ;;
  on_table tableName
    (insert_into tableName DeviceSchema
       (device_row now Sensor mac
          (field data "rssi" || JNull)%js
          (field data "temperature" || field data "T" || JNull)%js
          JNull JNull JNull
          (field data "weight" || JNull)%js
          data)) ;;;
  updateMetadata now tableName (Some Sensor).

(** [storeBatteryData(mac, data)]. *)
Definition storeBatteryData (now : Z) (mac : string) (data : payload) : M unit :=
  require_connected ;;;
  tableName <- createTableForMac now mac ;;
  on_table tableName
    (insert_into tableName DeviceSchema
       (device_row now Battery mac
          JNull JNull
          (field data "percentage" || field data "battery_percentage" || JNull)%js
          JNull JNull JNull
          data)) ;;;
  updateMetadata now tableName (Some Battery).

(** [storeAntData(macAnt, macTag, distance)]. *)
Definition storeAntData (now : Z) (macAnt macTag : string) (distance' : jsval)
    : M unit :=
  require_connected ;;;
  tableName <- createTableForMac now macTag ;;
  on_table tableName
    (insert_into tableName DeviceSchema
       (device_row now Ant macTag
          JNull JNull JNull
          (JStr macAnt)
          (JNum (parseFloat h distance') || JNull)%js
          JNull
          (<["macAnt" := JStr macAnt]>
             (<["macTag" := JStr macTag]> {["distance" := distance']})))) ;;;
  updateMetadata now tableName (Some Ant).

Definition ENVIRONMENT_DATA : string := "ENVIRONMENT_DATA".

(** [storeEnvironmentData(data)]. *)
Definition storeEnvironmentData (now : Z) (data : payload) : M unit :=
  require_connected ;;;
  let tableName := ENVIRONMENT_DATA in
  st <- get_state ;;
  (if decide (tableName ∈ createdTables st) then ret tt
   else
     create_table_if_not_exists tableName EnvironmentSchema ;;;
     st' <- get_state ;;
     put_state (set_createdTables st' ({[tableName]} ∪ createdTables st'))) ;;;
  insert_into tableName EnvironmentSchema
    (environment_row now
       (field data "temperature" || field data "Temperature" || JNull)%js
       (field data "humidity" || field data "Humidity" || JNull)%js
       data).

(** [queryData(mac, options = {})]; [limit] defaults to 100. *)
Definition queryData (mac : string) (o : options) : M (list row) :=
  require_connected ;;;
  let tableName := sanitizeMacForTableName mac in
  results <- on_table tableName (select_from tableName o (matches o)) ;;
  ret (sql_limit (default 100 (limit o)) results).

(** The loop of [queryAllData]:
    [allResults = allResults.concat(results)] for each table. *)
Fixpoint query_each (o : options) (names : list string) (allResults : list row)
    : M (list row) :=
  match names with
  | [] => ret allResults
  | name :: names' =>
      results <- on_table name (select_from name o (matches o)) ;;
      query_each o names' (allResults ++ results)
  end.

(** [SELECT table_name, mac_address FROM biocv_metadata
    WHERE table_name != 'ENVIRONMENT_DATA']. *)
Definition device_tables (st : store) : list string :=
  List.filter (fun n => negb (String.eqb n ENVIRONMENT_DATA))
    (map table_name (metadata st)).

(** [queryAllData(options = {})]; [limit] defaults to 1000. *)
Definition queryAllData (o : options) : M (list row) :=
  require_connected ;;;
  st <- get_state ;;
  allResults <- query_each o (device_tables st) [] ;;
  let allResults := stable_sort (newest_first h) allResults in
  ret (slice0 (default 1000 (limit o)) allResults).

(** [new Date()], [setDate(getDate() - days)] and then
    [cutoffDate.toISOString()], which throws on an invalid date.  The
    day of the month is read and set in local time. *)
Definition cutoffDate (now : Z) (days : jsval) : option Z :=
  let t := LocalTime h now in
  match Time.setDate t (int_minus (Time.getDate t) (toNumber h days)) with
  | Some newDate => Time.time_clip (UTC h newDate)
  | None => None
  end.

Definition cutoff_text (cutoff : option Z) : M string :=
  match cutoff with
  | Some ms => ret (Time.toISOString ms)
  | None => throw InvalidTime
  end.

(** The loop of [cleanupOldData] over all tables. *)
Fixpoint cleanup_each (now : Z) (cutoff : option Z) (names : list string)
    (totalDeleted : Z) : M Z :=
  match names with
  | [] => ret totalDeleted
  | name :: names' =>
      iso <- cutoff_text cutoff ;;
      changes <- on_table name (delete_older name iso) ;;
      updateMetadata now name None ;;;
      cleanup_each now cutoff names' (totalDeleted + changes)
  end.

(** [cleanupOldData(mac = null, olderThanDays = null)].  [if (mac)]
    takes the empty string for no address. *)
Definition cleanupOldData (now : Z) (mac : option string)
    (olderThanDays : jsval) : M Z :=
  require_connected ;;;
  st <- get_state ;;
  let days := (olderThanDays || field (config st) "retention_days")%js in
  let cutoff := cutoffDate now days in
  match mac with
  | Some (String c m) =>
      let mac := String c m in
      let tableName := sanitizeMacForTableName mac in
      iso <- cutoff_text cutoff ;;
      changes <- on_table tableName (delete_older tableName iso) ;;
      updateMetadata now tableName None ;;;
      ret changes
  | _ =>
      cleanup_each now cutoff (map table_name (metadata st)) 0
  end.

(** [dropTable(mac)], for a key whose table name is not that of
    [biocv_metadata]. *)
Definition dropTable (mac : string) : M unit :=
  require_connected ;;;
  let tableName := sanitizeMacForTableName mac in
  on_table tableName (drop_table_if_exists tableName) ;;;
  delete_metadata tableName ;;;
  st <- get_state ;;
  put_state (set_createdTables st (createdTables st ∖ {[tableName]})).

End Storage.

(** [new StandaloneSQLiteStorage(config)] on a database file that does
    not exist yet: the defaults, then every field of [config] over
    them. *)
Definition defaults (c : payload) : payload :=
  <["database_path" := (field c "database_path" || JStr "./data/biocv_standalone.db")%js]>
  (<["max_table_size" := (field c "max_table_size" || JNum (Num 10000))%js]>
  (<["retention_days" := (field c "retention_days" || JNum (Num 30))%js]>
  (<["auto_create_tables" := JBool (negb (strict_eq_false (field c "auto_create_tables")))]>
  ({["enable_logging" := JBool (negb (strict_eq_false (field c "enable_logging")))]})))).

Definition constructor (c : payload) : store :=
  {| config := c ∪ defaults c; isConnected := false; createdTables := ∅;
     tables := ∅; meta_last_id := 0; metadata := [] |}.

(** [initialize()]: nothing when already connected; otherwise the
    connection is opened and [biocv_metadata] created if it is not
    there. *)
Definition initialize : M unit :=
  fun st => if isConnected st then (Ok tt, st) else (Ok tt, set_isConnected st true).

(** [close()]. *)
Definition close : M unit :=
  fun st => (Ok tt, set_isConnected st false).

(** ** A host for the examples

    It reads a text as a number when the text is an unsigned decimal
    integer, accepts a name made of letters, digits and underscores
    that does not start with a digit, runs in UTC, and has rows of one
    timestamp latest first, or earliest first when the statement
    filters by [data_type] (the engine then goes through the index of
    that column and sorts).  On the texts and names of the examples
    below this is what Node.js and SQLite do. *)

Definition is_digit (c : ascii) : bool :=
  let n := N_of_ascii c in ((48 <=? n) && (n <=? 57))%N.

Definition is_letter (c : ascii) : bool :=
  let n := N_of_ascii c in
  (((65 <=? n) && (n <=? 90)) || ((97 <=? n) && (n <=? 122)))%N.

Fixpoint decimal_value (acc : Z) (s : string) : Z :=
  match s with
  | EmptyString => acc
  | String c s' => decimal_value (10 * acc + Z.of_N (N_of_ascii c - 48)) s'
  end.

Definition is_decimal (s : string) : bool :=
  negb (String.eqb s EmptyString) && Str.all_chars is_digit s.

Definition bare_identifier (s : string) : bool :=
  match s with
  | EmptyString => false
  | String c _ =>
      negb (is_digit c)
      && Str.all_chars (fun c => is_letter c || is_digit c || Ascii.eqb c "_") s
  end.

Definition node : host :=
  {| parseFloat_text := fun s => if is_decimal s then Num (inject_Z (decimal_value 0 s)) else NaN;
     toNumber_text := fun s => if is_decimal s then Num (inject_Z (decimal_value 0 s)) else NaN;
     numeric_text := is_decimal;
     accepts := bare_identifier;
     localTZA := fun _ _ => 0;
     tie_first := fun dt _ _ a b =>
       if truthy dt && negb (strict_eq_str dt "all") then a <? b else b <? a |}.

(** Running a method and then another on the state it leaves. *)
Definition state_after {A} (m : M A) (st : store) : store := snd (m st).
Definition result_of {A} (m : M A) (st : store) : result A := fst (m st).

(** ** Definitions used to state the properties *)

(** The character [sanitizeMacForTableName] writes for [c]. *)
Definition sanitize_char (c : ascii) : ascii :=
  Str.upper_char (Str.replace_char ":" "_" c).

Definition not_underscore (c : ascii) : bool := negb (Ascii.eqb c "_").

(** The shape the three write methods for a device share: the guard,
    the table, the row, the metadata. *)
Definition write_device (h : host) (now : Z) (mac : string) (k : kind)
    (mk : Z -> row) : M unit :=
  bind require_connected (fun _ =>
  bind (createTableForMac h now mac) (fun tableName =>
  bind (on_table h tableName (insert_into tableName DeviceSchema mk)) (fun _ =>
  updateMetadata h now tableName (Some k)))).

(** A write for a device. *)
Inductive write : Type :=
  | SensorWrite (mac : string) (data : payload)
  | BatteryWrite (mac : string) (data : payload)
  | AntWrite (macAnt macTag : string) (distance' : jsval).

Definition store_write (h : host) (now : Z) (w : write) : M unit :=
  match w with
  | SensorWrite mac data => storeSensorData h now mac data
  | BatteryWrite mac data => storeBatteryData h now mac data
  | AntWrite macAnt macTag d => storeAntData h now macAnt macTag d
  end.

Definition write_key (w : write) : string :=
  match w with
  | SensorWrite mac _ | BatteryWrite mac _ | AntWrite _ mac _ => mac
  end.

Definition write_kind (w : write) : kind :=
  match w with
  | SensorWrite _ _ => Sensor
  | BatteryWrite _ _ => Battery
  | AntWrite _ _ _ => Ant
  end.

(** The first of the candidates that is truthy, [NULL] when none is. *)
Fixpoint first_truthy (candidates : list jsval) : jsval :=
  match candidates with
  | [] => JNull
  | v :: rest => if truthy v then v else first_truthy rest
  end.

(** The typed columns of a row, and what a write puts in them. *)
Record typed_fields : Type := {
  f_rssi : jsval;
  f_temperature : jsval;
  f_battery_percentage : jsval;
  f_distance : jsval;
  f_weight : jsval
}.

Definition typed_of (r : row) : typed_fields :=
  {| f_rssi := rssi r; f_temperature := temperature r;
     f_battery_percentage := battery_percentage r;
     f_distance := distance r; f_weight := weight r |}.

Definition extracted (h : host) (w : write) : typed_fields :=
  match w with
  | SensorWrite _ data =>
      {| f_rssi := first_truthy [field data "rssi"];
         f_temperature := first_truthy [field data "temperature"; field data "T"];
         f_battery_percentage := JNull;
         f_distance := JNull;
         f_weight := first_truthy [field data "weight"] |}
  | BatteryWrite _ data =>
      {| f_rssi := JNull; f_temperature := JNull;
         f_battery_percentage :=
           first_truthy [field data "percentage"; field data "battery_percentage"];
         f_distance := JNull; f_weight := JNull |}
  | AntWrite _ _ d =>
      {| f_rssi := JNull; f_temperature := JNull;
         f_battery_percentage := JNull;
         f_distance := first_truthy [JNum (parseFloat h d)];
         f_weight := JNull |}
  end.

(** The table a write leaves for its key when the table before it was
    [t0]. *)
Definition with_row (t0 : table) (mk : Z -> row) : table :=
  {| columns := columns t0; last_id := last_id t0 + 1;
     rows := rows t0 ++ [mk (last_id t0 + 1)] |}.

Definition empty_table (c : schema) : table :=
  {| columns := c; last_id := 0; rows := [] |}.

(** The table a statement finds under [name]: the one that is there,
    or the one [CREATE TABLE IF NOT EXISTS] makes. *)
Definition table_or_new (st : store) (name : string) : table :=
  default (empty_table DeviceSchema) (tables st !! table_key name).

(** [this.config = { ...this.config, ...newConfig }] seen from the
    database: the same store with another configuration. *)
Definition set_config (st : store) (c : payload) : store :=
  {| config := c; isConnected := isConnected st;
     createdTables := createdTables st; tables := tables st;
     meta_last_id := meta_last_id st; metadata := metadata st |}.

(** A table name is registered when [biocv_metadata] has a row for it,
    and known when [createdTables] has it. *)
Definition registered (st : store) (name : string) : Prop :=
  existsb (named name) (metadata st) = true.

Definition known (st : store) (name : string) : Prop :=
  name ∈ createdTables st.





(** The state [dropTable] leaves when it goes through. *)
Definition dropped (st : store) (name : string) : store :=
  {| config := config st; isConnected := isConnected st;
     createdTables := createdTables st ∖ {[name]};
     tables := delete (table_key name) (tables st);
     meta_last_id := meta_last_id st;
     metadata := List.filter (fun m => negb (named name m)) (metadata st) |}.

(** The row each of the three write methods builds. *)
Definition row_of (h : host) (now : Z) (w : write) : Z -> row :=
  match w with
  | SensorWrite mac data =>
      device_row now Sensor mac (field data "rssi" || JNull)%js
        (field data "temperature" || field data "T" || JNull)%js
        JNull JNull JNull (field data "weight" || JNull)%js data
  | BatteryWrite mac data =>
      device_row now Battery mac JNull JNull
        (field data "percentage" || field data "battery_percentage" || JNull)%js
        JNull JNull JNull data
  | AntWrite macAnt macTag d =>
      device_row now Ant macTag JNull JNull JNull (JStr macAnt)
        (JNum (parseFloat h d) || JNull)%js JNull
        (<["macAnt" := JStr macAnt]>
           (<["macTag" := JStr macTag]> {["distance" := d]}))
  end.


(** The table [DELETE FROM name WHERE created_at < ?] leaves. *)
Definition without_older (cutoff : string) (t : table) : table :=
  {| columns := columns t; last_id := last_id t;
     rows := List.filter (fun r => negb (created_before cutoff r)) (rows t) |}.

(** The rows it deletes, counted. *)
Definition older_count (cutoff : string) (t : table) : Z :=
  Z.of_nat (List.length (List.filter (created_before cutoff) (rows t))).

(** What [SELECT ... FROM name WHERE ... ORDER BY timestamp DESC] gives
    for a table. *)
Definition selected (h : host) (o : options) (t : table) : list row :=
  order_by_timestamp_desc h o (List.filter (matches h o) (rows t)).

(** The last row of the table a name refers to. *)
Definition last_row (st : store) (name : string) : option row :=
  match tables st !! table_key name with
  | Some t => last (rows t)
  | None => None
  end.

Definition row_total (st : store) (name : string) : option nat :=
  match tables st !! table_key name with
  | Some t => Some (List.length (rows t))
  | None => None
  end.

Definition rows_returned (r : result (list row)) : list row :=
  match r with
  | Ok l => l
  | Err _ => []
  end.

(** ** Calls and invariants *)

(** A call of a method of the store. *)
Inductive call : Type :=
  | Initialize
  | Close
  | Store (now : Z) (w : write)
  | StoreEnvironment (now : Z) (data : payload)
  | Query (mac : string) (o : options)
  | QueryAll (o : options)
  | Cleanup (now : Z) (mac : option string) (olderThanDays : jsval)
  | Drop (mac : string).

(** The state a call leaves, whether it returns or throws. *)
Definition after (h : host) (c : call) (st : store) : store :=
  match c with
  | Initialize => state_after initialize st
  | Close => state_after close st
  | Store now w => state_after (store_write h now w) st
  | StoreEnvironment now data => state_after (storeEnvironmentData now data) st
  | Query mac o => state_after (queryData h mac o) st
  | QueryAll o => state_after (queryAllData h o) st
  | Cleanup now mac days => state_after (cleanupOldData h now mac days) st
  | Drop mac => state_after (dropTable h mac) st
  end.

(** The keys of the calls are hardware addresses. *)
Definition for_device (c : call) : Prop :=
  match c with
  | Store _ w => valid_key (write_key w) = true
  | Query mac _ | Drop mac | Cleanup _ (Some mac) _ => valid_key mac = true
  | _ => True
  end.

(** The path of a database that is a file and stays when the
    connection is closed: neither [:memory:] nor the empty path, which
    name a database that ends with its connection. *)
Definition file_path (v : jsval) : Prop :=
  match v with
  | JStr s => s <> EmptyString /\ s <> ":memory:"
  | _ => False
  end.

(** The stores a program reaches from a new one, whose database is a
    file, by calls whose keys are hardware addresses. *)
Inductive reachable (h : host) : store -> Prop :=
  | reach_new (c : payload) :
      file_path (field (config (constructor c)) "database_path") ->
      reachable h (constructor c)
  | reach_call (c : call) (st : store) :
      reachable h st -> for_device c -> reachable h (after h c st).

(** Every registered table name satisfies [P]. *)
Definition registered_names (P : string -> Prop) (st : store) : Prop :=
  Forall (fun m => P (table_name m)) (metadata st).

(** The table name of a hardware address. *)
Definition device_table (n : string) : Prop :=
  exists k, valid_key k = true /\ sanitizeMacForTableName k = n.

(** A method body keeps an invariant when the state it leaves,
    returning or throwing, satisfies it if the state it started from
    does. *)
Definition keeps (Inv : store -> Prop) {A} (m : M A) : Prop :=
  forall st, Inv st -> Inv (snd (m st)).

(** Every metadata row names, in upper case, a table that exists and
    that the engine accepts by that name. *)
Definition tables_behind_metadata (h : host) (st : store) : Prop :=
  Forall (fun m =>
            accepts h (table_name m) = true
            /\ table_key (table_name m) = table_name m
            /\ is_Some (tables st !! table_key (table_name m)))
    (metadata st).

(** ** Example stores *)

(** 2026-11-01T18:00:00.123Z, and five days later. *)
Definition t0 : Z := 1793556000123.
Definition five_days_later : Z := t0 + 5 * Time.msPerDay.

Definition device : string := "E8:74:EC:4F:C9:09".
Definition other_device : string := "F0:11:22:33:44:55".
Definition anchor : string := "AA:BB:CC:DD:EE:FF".

(** [{ rssi: -75, T: 25.55 }]. *)
Definition reading : payload :=
  <["rssi" := JNum (Num (-75 # 1))]> {["T" := JNum (Num (2555 # 100))]}.

(** [{ rssi: -60, temperature: 0, weight: 0 }]: a reading at the
    freezing point. *)
Definition zero_reading : payload :=
  <["rssi" := JNum (Num (-60 # 1))]>
    (<["temperature" := JNum (Num 0)]> {["weight" := JNum (Num 0)]}).

(** [{ percentage: 0 }]. *)
Definition empty_battery : payload := {["percentage" := JNum (Num 0)]}.

(** [{ temperature: 21.5, humidity: 40 }]. *)
Definition climate : payload :=
  <["temperature" := JNum (Num (215 # 10))]> {["humidity" := JNum (Num 40)]}.

(** A store on a new file, initialized, with the default
    configuration. *)
Definition fresh : store := state_after initialize (constructor ∅).


(** One sensor reading stored at [t0]. *)
Definition with_reading : store :=
  state_after (storeSensorData node t0 device reading) fresh.


(** A reading of one device, an environment record a second later and
    a reading of another device a minute later. *)
Definition two_devices : store :=
  state_after (storeSensorData node (t0 + 60000) other_device reading)
    (state_after (storeEnvironmentData (t0 + 1000) climate) with_reading).

(** ** Statistics, configuration and export *)

(** [MIN(timestamp)] and [MAX(timestamp)] over texts: [NULL] when there
    is no row. *)
Definition text_min (a b : string) : string := if String.ltb b a then b else a.
Definition text_max (a b : string) : string := if String.ltb a b then b else a.

Definition min_text (l : list string) : option string :=
  match l with
  | [] => None
  | x :: l' => Some (fold_left text_min l' x)
  end.

Definition max_text (l : list string) : option string :=
  match l with
  | [] => None
  | x :: l' => Some (fold_left text_max l' x)
  end.

(** [COUNT(DISTINCT data_type)]. *)
Definition count_distinct_kinds (l : list row) : Z :=
  Z.of_nat (List.length
    (List.filter (fun k => existsb (fun r => kind_eqb (data_type r) k) l)
       [Sensor; Battery; Ant; Environment])).

(** [{ mac, ...stats }], the row of aggregates of one table. *)
Record table_stats : Type := {
  stats_mac : string;
  total_rows : Z;
  distinct_data_types : Z;
  first_entry : option string;
  last_entry : option string
}.

(** A row of [SELECT table_name, mac_address, row_count, last_updated,
    data_types FROM biocv_metadata]. *)
Record table_summary : Type := {
  sum_table_name : string;
  sum_mac_address : string;
  sum_row_count : Z;
  sum_last_updated : string;
  sum_data_types : list kind
}.

Definition summary_of (m : meta_row) : table_summary :=
  {| sum_table_name := table_name m; sum_mac_address := m_mac_address m;
     sum_row_count := row_count m;
     sum_last_updated := Time.sqlite_datetime (last_updated m);
     sum_data_types := data_types m |}.

Inductive stats : Type :=
  | TableStats (s : table_stats)
  | AllStats (l : list table_summary).

(** [ORDER BY last_updated DESC]. *)
Definition updated_desc (a b : meta_row) : bool :=
  negb (String.ltb (Time.sqlite_datetime (last_updated a))
                   (Time.sqlite_datetime (last_updated b))).

(** The aggregates of [getStorageStats(mac)] over a table. *)
Definition aggregate (mac : string) (t : table) : table_stats :=
  let texts := map (fun r => Time.sqlite_datetime (timestamp r)) (rows t) in
  {| stats_mac := mac;
     total_rows := Z.of_nat (List.length (rows t));
     distinct_data_types := count_distinct_kinds (rows t);
     first_entry := min_text texts;
     last_entry := max_text texts |}.

(** [getStorageStats(mac = null)]; [if (mac)] takes the empty string
    for no address. *)
Definition getStorageStats (h : host) (mac : option string) : M stats :=
  bind require_connected (fun _ =>
  match mac with
  | Some (String c m) =>
      let mac := String c m in
      let tableName := sanitizeMacForTableName mac in
      on_table h tableName
        (fun st =>
           match tables st !! table_key tableName with
           | None => (Err (NoSuchTable tableName), st)
           | Some t => (Ok (TableStats (aggregate mac t)), st)
           end)
  | _ =>
      fun st =>
        (Ok (AllStats (map summary_of (stable_sort updated_desc (metadata st)))), st)
  end).

(** What [getConfig()] returns. *)
Record config_view : Type := {
  database_path : jsval;
  max_table_size : jsval;
  retention_days : jsval;
  auto_create_tables : jsval;
  enable_logging : jsval;
  connected : bool
}.

Definition getConfig (st : store) : config_view :=
  {| database_path := field (config st) "database_path";
     max_table_size := field (config st) "max_table_size";
     retention_days := field (config st) "retention_days";
     auto_create_tables := field (config st) "auto_create_tables";
     enable_logging := field (config st) "enable_logging";
     connected := isConnected st |}.

(** [updateConfig(newConfig)]:
    [this.config = { ...this.config, ...newConfig }]. *)
Definition updateConfig (newConfig : payload) : M unit :=
  fun st => (Ok tt, set_config st (newConfig ∪ config st)).

(** The options of [exportToJSON]; [if (mac)] takes the empty string
    for no address. *)
Record export_options : Type := {
  x_mac : option string;
  x_dataType : jsval;
  x_startDate : jsval;
  x_endDate : jsval
}.

(** [exportData]; the file holds its JSON text. *)
Record export_document : Type := {
  export_timestamp : string;
  export_options_used : export_options;
  record_count : Z;
  export_data : list row
}.

(** What [exportToJSON] is rejected with: the error of the store, or
    that of [fs.writeFileSync]. *)
Inductive export_error : Type :=
  | StoreError (e : error)
  | WriteError (path : string).

Definition has_address (mac : option string) : option string :=
  match mac with
  | Some (String c m) => Some (String c m)
  | _ => None
  end.

(** A file: the JSON text of a document, or what is left of a file that
    was opened for writing and not written to the end. *)
Inductive file : Type :=
  | Document (d : export_document)
  | Partial.

(** What [fs.writeFileSync(path, text)] comes to: the file is written,
    the call is refused before the file is opened (no such directory,
    no permission) and the file is as it was, or the call fails after
    the file was opened, and thereby emptied. *)
Inductive write_outcome : Type := Written | Refused | Broken.

(** [exportToJSON(filePath, options = {})].  The files are kept by
    path; [fs] tells what a write to a path comes to. *)
Definition exportToJSON (h : host) (fs : string -> write_outcome) (now : Z)
    (filePath : string) (o : export_options)
    (st : store) (files : gmap string file)
    : (export_document + export_error) * store * gmap string file :=
  if isConnected st then
    let q := {| dataType := x_dataType o; startDate := x_startDate o;
                endDate := x_endDate o; limit := Some 10000 |} in
    let '(r, st') :=
      match has_address (x_mac o) with
      | Some mac => queryData h mac q st
      | None => queryAllData h q st
      end in
    match r with
    | Err e => (inr (StoreError e), st', files)
    | Ok rows' =>
        let exportData :=
          {| export_timestamp := Time.toISOString now;
             export_options_used := o;
             record_count := Z.of_nat (List.length rows');
             export_data := rows' |} in
        match fs filePath with
        | Written => (inl exportData, st', <[filePath := Document exportData]> files)
        | Refused => (inr (WriteError filePath), st', files)
        | Broken => (inr (WriteError filePath), st', <[filePath := Partial]> files)
        end
    end
  else (inr (StoreError NotConnected), st, files).


(** ** More definitions used to state the properties *)

(** [s1] does not sort after [s2]. *)
Definition text_le (s1 s2 : string) : Prop := String.ltb s2 s1 = false.

(** The text of the [timestamp] column of a row. *)
Definition timestamp_text (r : row) : string := Time.sqlite_datetime (timestamp r).

(** Latest text first. *)
Definition text_not_older (a b : row) : Prop :=
  text_le (timestamp_text b) (timestamp_text a).

(** [UPDATE biocv_metadata ...] seen on one row. *)
Definition refreshed (name : string) (count : Z) (types : list kind) (now_s : Z)
    (m : meta_row) : meta_row :=
  if named name m then
    {| m_id := m_id m; table_name := table_name m;
       m_mac_address := m_mac_address m; m_created_at := m_created_at m;
       last_updated := now_s; row_count := count; data_types := types |}
  else m.

(** The kinds [updateMetadata] writes back. *)
Definition kinds_with (ms : list meta_row) (name : string) (k : option kind) : list kind :=
  let seen := match List.find (named name) ms with
              | Some m => data_types m
              | None => []
              end in
  match k with
  | Some k => if existsb (kind_eqb k) seen then seen else (seen ++ [k])%list
  | None => seen
  end.


(** The store a cleanup for one table leaves. *)
Definition cleaned (st : store) (now : Z) (name iso : string) (t : table) : store :=
  set_metadata
    (set_tables st (<[table_key name := without_older iso t]> (tables st)))
    (meta_last_id st)
    (map (refreshed name (Z.of_nat (List.length (rows (without_older iso t))))
            (kinds_with (metadata st) name None) (now / 1000))
       (metadata st)).

(** The year of a time value, in UTC. *)
Definition utc_year (ms : Z) : Z :=
  let '(y, _, _) := Time.civil_from_days (ms / Time.msPerDay) in y.



(** The defaults of the constructor. *)
Definition default_config : payload := defaults ∅.

(** ** What the metadata says about the tables *)

(** Every table but the environment table has the columns of a device
    table. *)
Definition device_columns (st : store) : Prop :=
  forall κ t, tables st !! κ = Some t -> κ <> ENVIRONMENT_DATA ->
    columns t = DeviceSchema.

(** Every table but the environment table has a metadata row. *)
Definition tables_registered (st : store) : Prop :=
  forall κ, is_Some (tables st !! κ) -> κ <> ENVIRONMENT_DATA -> registered st κ.

(** A metadata row that counts the rows of its table and lists the kind
    of each of them. *)
Definition accounted_row (st : store) (m : meta_row) : Prop :=
  exists t, tables st !! table_key (table_name m) = Some t
    /\ row_count m = Z.of_nat (List.length (rows t))
    /\ forall r, In r (rows t) -> In (data_type r) (data_types m).

Definition accounted (st : store) : Prop := Forall (accounted_row st) (metadata st).

(** Every metadata row carries an address that leads to its table. *)
Definition addressed (st : store) : Prop :=
  Forall (fun m => sanitizeMacForTableName (m_mac_address m) = table_name m)
    (metadata st).

(** The metadata and the tables of the devices agree. *)
Definition consistent (h : host) (st : store) : Prop :=
  tables_behind_metadata h st
  /\ registered_names (fun n => table_key n <> ENVIRONMENT_DATA) st
  /\ device_columns st
  /\ tables_registered st
  /\ accounted st
  /\ NoDup (map table_name (metadata st))
  /\ addressed st.

(** ** More examples *)

(** The address of [device] in lower case, and the name of the
    environment table in lower case. *)
Definition device_lower : string := "e8:74:ec:4f:c9:09".



(** 400 days after [t0]. *)
Definition next_year : Z := t0 + 400 * Time.msPerDay.

(** Thirty days after [t0], six hours earlier in the day: the cutoff
    of a cleanup run then, with the default retention, is the day of
    [t0], before [t0]. *)
Definition a_month_later : Z := t0 + 30 * Time.msPerDay - 6 * 3600000.




(** A zone an hour east of Greenwich that sets its clocks forward by an
    hour at 01:00 UTC on 2026-03-29: the local times from 02:00 to
    03:00 of that day do not exist, and are read with the offset from
    before. *)
Definition clocks_forward : Z := 1774746000000.

Definition central_europe : host :=
  {| parseFloat_text := parseFloat_text node;
     toNumber_text := toNumber_text node;
     numeric_text := numeric_text node;
     accepts := accepts node;
     localTZA := fun t isUTC =>
       if isUTC then (if t <? clocks_forward then 3600000 else 7200000)
       else (if t <? clocks_forward + 7200000 then 3600000 else 7200000);
     tie_first := tie_first node |}.

(** Two readings of [device], at 02:30:00 and at 03:10:00 UTC on that
    day. *)
Definition spring_readings : store :=
  state_after (storeSensorData central_europe 1774753800000 device reading)
    (state_after (storeSensorData central_europe 1774751400000 device reading) fresh).


(** The metadata row of [device] in [with_reading]. *)
Definition device_entry : meta_row :=
  {| m_id := 1; table_name := "E8_74_EC_4F_C9_09"; m_mac_address := device;
     m_created_at := t0 / 1000; last_updated := t0 / 1000; row_count := 1;
     data_types := [Sensor] |}.

(** * Properties *)

(** ** Table names *)

Module StrFacts.

Lemma in_all_ascii (c : ascii) : In c Str.all_ascii.
Proof.
  unfold Str.all_ascii. rewrite <- (ascii_nat_embedding c).
  apply in_map, in_seq. pose proof (nat_ascii_bounded c). lia.
Qed.

(** A property of one character that a computation over the 256
    characters checks. *)
Lemma by_cases1 (p : ascii -> bool) :
  forallb p Str.all_ascii = true -> forall c, p c = true.
Proof.
  intros H c. rewrite forallb_forall in H. apply H, in_all_ascii.
Qed.

Lemma by_cases2 (p : ascii -> ascii -> bool) :
  forallb (fun a => forallb (p a) Str.all_ascii) Str.all_ascii = true ->
  forall a b, p a b = true.
Proof.
  intros H a b. apply by_cases1. revert a. apply by_cases1. exact H.
Qed.

Lemma map_chars_compose f g s :
  Str.map_chars f (Str.map_chars g s) = Str.map_chars (fun c => f (g c)) s.
Proof. induction s as [|c s IH]; simpl; [reflexivity | now rewrite IH]. Qed.

Lemma map_chars_ext f g s :
  (forall c, f c = g c) -> Str.map_chars f s = Str.map_chars g s.
Proof. intros E. induction s as [|c s IH]; simpl; [reflexivity | now rewrite E, IH]. Qed.

Lemma upper_char_idem c : Str.upper_char (Str.upper_char c) = Str.upper_char c.
Proof.
  apply Ascii.eqb_eq. revert c.
  apply (by_cases1 (fun c => Ascii.eqb (Str.upper_char (Str.upper_char c)) (Str.upper_char c))).
  vm_compute. reflexivity.
Qed.

Lemma upper_lower_char c : Str.upper_char (Str.lower_char c) = Str.upper_char c.
Proof.
  apply Ascii.eqb_eq. revert c.
  apply (by_cases1 (fun c => Ascii.eqb (Str.upper_char (Str.lower_char c)) (Str.upper_char c))).
  vm_compute. reflexivity.
Qed.

Lemma toUpperCase_idem s : Str.toUpperCase (Str.toUpperCase s) = Str.toUpperCase s.
Proof.
  unfold Str.toUpperCase. rewrite map_chars_compose.
  apply map_chars_ext, upper_char_idem.
Qed.

End StrFacts.

Lemma sanitize_as_map (k : string) :
  sanitizeMacForTableName k = Str.map_chars sanitize_char k.
Proof.
  unfold sanitizeMacForTableName, Str.toUpperCase, Str.replace_all.
  now rewrite StrFacts.map_chars_compose.
Qed.

Lemma alike_char_spec (c1 c2 : ascii) :
  alike_char c1 c2 = Ascii.eqb (sanitize_char c1) (sanitize_char c2).
Proof.
  apply Bool.eqb_prop. revert c1 c2.
  apply (StrFacts.by_cases2
           (fun a b => Bool.eqb (alike_char a b)
                         (Ascii.eqb (sanitize_char a) (sanitize_char b)))).
  vm_compute. reflexivity.
Qed.

(** Two keys get the same table name exactly when they are written
    alike. *)
Lemma sanitize_eq_iff_alike (k1 k2 : string) :
  sanitizeMacForTableName k1 = sanitizeMacForTableName k2 <-> alike k1 k2 = true.
Proof.
  rewrite !sanitize_as_map. revert k2.
  induction k1 as [|c1 r1 IH]; intros [|c2 r2]; simpl; try (split; congruence).
  rewrite andb_true_iff, alike_char_spec, Ascii.eqb_eq, <- IH.
  split; [intros [= -> ->] | intros [-> ->]]; auto.
Qed.

Lemma alike_char_upper (c1 c2 : ascii) :
  alike_char c1 c2 = true -> not_underscore c1 = true -> not_underscore c2 = true ->
  Str.upper_char c1 = Str.upper_char c2.
Proof.
  unfold alike_char, is_sep, not_underscore. intros H N1 N2.
  apply negb_true_iff in N1, N2. rewrite N1, N2, !orb_false_r in H.
  apply orb_true_iff in H as [H | H].
  - now apply Ascii.eqb_eq.
  - apply andb_true_iff in H as [H1 H2].
    apply Ascii.eqb_eq in H1, H2. now subst.
Qed.

Lemma alike_upper (k1 k2 : string) :
  alike k1 k2 = true ->
  Str.all_chars not_underscore k1 = true ->
  Str.all_chars not_underscore k2 = true ->
  Str.toUpperCase k1 = Str.toUpperCase k2.
Proof.
  revert k2. induction k1 as [|c1 r1 IH]; intros [|c2 r2]; simpl; try congruence.
  rewrite !andb_true_iff. intros [Hc Hr] [N1 A1] [N2 A2].
  unfold Str.toUpperCase in *. simpl.
  rewrite (alike_char_upper c1 c2 Hc N1 N2). f_equal. now apply IH.
Qed.

Lemma hex_digit_not_underscore (c : ascii) :
  is_hex_digit c = true -> not_underscore c = true.
Proof.
  revert c.
  assert (H : forall c, implb (is_hex_digit c) (not_underscore c) = true).
  { apply StrFacts.by_cases1. vm_compute. reflexivity. }
  intros c Hc. specialize (H c). now rewrite Hc in H.
Qed.

Lemma hex_groups_no_underscore (n : nat) (s : string) :
  hex_groups n s = true -> Str.all_chars not_underscore s = true.
Proof.
  revert s. induction n as [|n IH]; intros s H; [discriminate H|].
  destruct s as [|a [|b [|c rest]]]; try (destruct n; simpl in H; discriminate H).
  - destruct n as [|n']; [|simpl in H; discriminate H].
    simpl in H. apply andb_true_iff in H as [Ha Hb]. simpl.
    now rewrite (hex_digit_not_underscore a Ha), (hex_digit_not_underscore b Hb).
  - assert (H' : is_hex_digit a && is_hex_digit b && Ascii.eqb c ":"
                 && hex_groups n rest = true).
    { destruct n as [|n']; exact H. }
    rewrite !andb_true_iff in H'. destruct H' as [[[Ha Hb] Hc] Hr].
    apply Ascii.eqb_eq in Hc. subst c. simpl.
    rewrite (hex_digit_not_underscore a Ha), (hex_digit_not_underscore b Hb).
    simpl. apply (IH _ Hr).
Qed.

Lemma valid_key_no_underscore (k : string) :
  valid_key k = true -> Str.all_chars not_underscore k = true.
Proof. apply hex_groups_no_underscore. Qed.

(** C1: two valid keys that are distinct, that is, that are not two
    spellings of one address in different letter case (their upper-case
    forms differ), have distinct table names. *)
Theorem tableName_injective_up_to_case (k1 k2 : string) :
  valid_key k1 = true -> valid_key k2 = true ->
  Str.toUpperCase k1 <> Str.toUpperCase k2 ->
  sanitizeMacForTableName k1 <> sanitizeMacForTableName k2.
Proof.
  intros V1 V2 Hne Heq. apply Hne.
  apply alike_upper; auto using valid_key_no_underscore.
  now apply sanitize_eq_iff_alike.
Qed.

Lemma tableName_injective_up_to_case_witness :
  sanitizeMacForTableName "aa:bb:cc:dd:ee:ff"
  <> sanitizeMacForTableName "AA:BB:CC:DD:EE:F0".
Proof.
  apply tableName_injective_up_to_case; [reflexivity | reflexivity |].
  vm_compute. discriminate.
Defined.

(** C8, as the claim states it, fails: a hyphen is a non-alphanumeric
    separator, and the same address written with hyphens and with
    colons gets two table names. *)
Lemma tableName_separator_variation :
  sanitizeMacForTableName "AA-BB-CC-DD-EE-FF"
  <> sanitizeMacForTableName "AA:BB:CC:DD:EE:FF".
Proof. vm_compute. discriminate. Qed.

(** C8 (amended): the table name is a function of the key alone, and it
    is the same for two keys that differ only in the case of letters and
    in the choice between colon and underscore as separator; it is also
    unchanged when the transform is applied again. *)
Theorem tableName_case_and_colon_invariant (k1 k2 : string) :
  alike k1 k2 = true ->
  sanitizeMacForTableName k1 = sanitizeMacForTableName k2
  /\ sanitizeMacForTableName (Str.toLowerCase k1) = sanitizeMacForTableName k1
  /\ sanitizeMacForTableName (Str.toUpperCase k1) = sanitizeMacForTableName k1
  /\ sanitizeMacForTableName (sanitizeMacForTableName k1) = sanitizeMacForTableName k1.
Proof.
  intros H. split; [now apply sanitize_eq_iff_alike|].
  rewrite !sanitize_as_map. unfold Str.toLowerCase, Str.toUpperCase.
  rewrite !StrFacts.map_chars_compose.
  repeat split; apply StrFacts.map_chars_ext; intros c; apply Ascii.eqb_eq; revert c.
  - apply (StrFacts.by_cases1 (fun c => Ascii.eqb (sanitize_char (Str.lower_char c)) (sanitize_char c))).
    vm_compute. reflexivity.
  - apply (StrFacts.by_cases1 (fun c => Ascii.eqb (sanitize_char (Str.upper_char c)) (sanitize_char c))).
    vm_compute. reflexivity.
  - apply (StrFacts.by_cases1 (fun c => Ascii.eqb (sanitize_char (sanitize_char c)) (sanitize_char c))).
    vm_compute. reflexivity.
Qed.

Lemma tableName_case_and_colon_invariant_witness :
  sanitizeMacForTableName "e8:74:ec:4f:c9:09"
  = sanitizeMacForTableName "E8_74_EC_4F_C9_09".
Proof.
  apply (tableName_case_and_colon_invariant "e8:74:ec:4f:c9:09" "E8_74_EC_4F_C9_09").
  reflexivity.
Defined.
(** ** Running a method *)

Lemma bind_inv {A B} (m : M A) (f : A -> M B) st r st' :
  bind m f st = (r, st') ->
  (exists e, m st = (Err e, st') /\ r = Err e) \/
  (exists a st1, m st = (Ok a, st1) /\ f a st1 = (r, st')).
Proof.
  unfold bind. destruct (m st) as [[a|e] st1]; intros H.
  - right. eauto.
  - left. injection H as <- <-. eauto.
Qed.

Lemma bind_inv_ok {A B} (m : M A) (f : A -> M B) st b st' :
  bind m f st = (Ok b, st') ->
  exists a st1, m st = (Ok a, st1) /\ f a st1 = (Ok b, st').
Proof.
  intros H. apply bind_inv in H as [(e & _ & [=]) | H]. exact H.
Qed.

Lemma bind_run {A B} (m : M A) (f : A -> M B) st a st1 :
  m st = (Ok a, st1) -> bind m f st = f a st1.
Proof. unfold bind. now intros ->. Qed.

Lemma require_connected_run st :
  require_connected st =
  if isConnected st then (Ok tt, st) else (Err NotConnected, st).
Proof. unfold require_connected, bind, get_state. simpl. now destruct (isConnected st). Qed.

Lemma on_table_run {A} h name (m : M A) st :
  on_table h name m st =
  if accepts h name then m st else (Err (SyntaxError name), st).
Proof. unfold on_table. now destruct (accepts h name). Qed.

Lemma table_key_sanitize mac :
  table_key (sanitizeMacForTableName mac) = sanitizeMacForTableName mac.
Proof. apply StrFacts.toUpperCase_idem. Qed.

(** [updateMetadata] reads the tables and writes [biocv_metadata]
    only. *)
Lemma updateMetadata_run h now name k st :
  updateMetadata h now name k st =
  if accepts h name then
    match tables st !! table_key name with
    | Some t =>
        update_metadata name (Z.of_nat (List.length (rows t)))
          (let seen := match List.find (named name) (metadata st) with
                       | Some m => data_types m
                       | None => []
                       end in
           match k with
           | Some k => if existsb (kind_eqb k) seen then seen else (seen ++ [k])%list
           | None => seen
           end)
          (now / 1000) st
    | None => (Err (NoSuchTable name), st)
    end
  else (Err (SyntaxError name), st).
Proof.
  unfold updateMetadata. unfold bind at 1. unfold get_state at 1.
  unfold bind, count_rows. rewrite on_table_run.
  destruct (accepts h name); [|reflexivity].
  destruct (tables st !! table_key name); reflexivity.
Qed.

Lemma updateMetadata_frame h now name k st r st' :
  updateMetadata h now name k st = (r, st') ->
  tables st' = tables st /\ createdTables st' = createdTables st
  /\ isConnected st' = isConnected st /\ config st' = config st.
Proof.
  rewrite updateMetadata_run. unfold update_metadata.
  destruct (accepts h name); [|intros [= <- <-]; auto].
  destruct (tables st !! table_key name); intros [= <- <-]; auto.
Qed.

(** [createTableForMac], by cases. *)
Lemma createTableForMac_run h now mac st :
  let name := sanitizeMacForTableName mac in
  createTableForMac h now mac st =
  if decide (name ∈ createdTables st) then (Ok name, st)
  else if accepts h name then
    (Ok name,
     set_createdTables
       (snd (insert_or_ignore_metadata name mac (now / 1000)
               (set_tables st (<[table_key name := table_or_new st name]> (tables st)))))
       ({[name]} ∪ createdTables st))
  else (Err (SyntaxError name), st).
Proof.
  intros name. unfold createTableForMac. fold name.
  unfold bind at 1. unfold get_state at 1.
  destruct (decide (name ∈ createdTables st)); [reflexivity|].
  unfold bind at 1. rewrite on_table_run.
  destruct (accepts h name); [|reflexivity].
  unfold create_table_if_not_exists, table_or_new.
  destruct (tables st !! table_key name) as [t|] eqn:Ht; simpl.
  - rewrite (insert_id _ _ _ Ht).
    replace (set_tables st (tables st)) with st by now destruct st.
    unfold bind, insert_or_ignore_metadata, get_state, put_state, ret.
    destruct (existsb (named name) (metadata st)); reflexivity.
  - unfold bind, insert_or_ignore_metadata, get_state, put_state, ret. simpl.
    destruct (existsb (named name) (metadata st)); reflexivity.
Qed.

Lemma insert_into_run name c mk st :
  insert_into name c mk st =
  match tables st !! table_key name with
  | None => (Err (NoSuchTable name), st)
  | Some t =>
      if schema_eqb (columns t) c
      then (Ok tt, set_tables st (<[table_key name := with_row t mk]> (tables st)))
      else (Err (NoSuchColumn name), st)
  end.
Proof. reflexivity. Qed.

Lemma schema_eqb_eq a b : schema_eqb a b = true <-> a = b.
Proof. destruct a, b; simpl; split; congruence. Qed.

Lemma insert_or_ignore_metadata_frame name mac s st :
  let st' := snd (insert_or_ignore_metadata name mac s st) in
  tables st' = tables st /\ createdTables st' = createdTables st
  /\ isConnected st' = isConnected st /\ config st' = config st.
Proof.
  unfold insert_or_ignore_metadata.
  destruct (existsb (named name) (metadata st)); simpl; auto.
Qed.

(** What a successful write for a device has done to the tables. *)
Lemma write_device_ok h now mac k mk st st' :
  write_device h now mac k mk st = (Ok tt, st') ->
  let name := sanitizeMacForTableName mac in
  isConnected st = true /\ accepts h name = true /\
  columns (table_or_new st name) = DeviceSchema /\
  (tables st' = <[table_key name := with_row (table_or_new st name) mk]> (tables st)) /\
  config st' = config st.
Proof.
  intros H name. unfold write_device in H.
  apply bind_inv_ok in H as ([] & st1 & H1 & H).
  rewrite require_connected_run in H1.
  destruct (isConnected st) eqn:Hc; [|discriminate]. injection H1 as <-.
  apply bind_inv_ok in H as (name' & st2 & H2 & H).
  apply bind_inv_ok in H as ([] & st3 & H3 & H4).
  rewrite on_table_run in H3.
  rewrite createTableForMac_run in H2. fold name in H2.
  assert (Hname : name' = name).
  { destruct (decide (name ∈ createdTables st)); [congruence|].
    destruct (accepts h name); congruence. }
  subst name'.
  destruct (accepts h name) eqn:Ha; [|discriminate].
  rewrite insert_into_run in H3.
  destruct (tables st2 !! table_key name) as [t|] eqn:Ht; [|discriminate].
  destruct (schema_eqb (columns t) DeviceSchema) eqn:Hs; [|discriminate].
  apply schema_eqb_eq in Hs. injection H3 as <-.
  apply updateMetadata_frame in H4 as (Ht' & _ & _ & Hcfg'). simpl in Ht', Hcfg'.
  assert (Hst2 : tables st2 = <[table_key name := table_or_new st name]> (tables st)
                 /\ config st2 = config st).
  { destruct (decide (name ∈ createdTables st)).
    - injection H2 as <-. unfold table_or_new. rewrite Ht. simpl.
      split; [symmetry; now apply insert_id | reflexivity].
    - injection H2 as <-. simpl.
      pose proof (insert_or_ignore_metadata_frame name mac (now / 1000)
        (set_tables st (<[table_key name := table_or_new st name]> (tables st))))
        as (E1 & _ & _ & E2).
      simpl in E1, E2. now rewrite E1, E2. }
  destruct Hst2 as [Hst2 Hcfg2].
  rewrite Hst2, lookup_insert_eq in Ht. injection Ht as <-.
  repeat split; auto.
  - rewrite Ht', Hst2. apply insert_insert_eq.
  - congruence.
Qed.

Lemma js_or_first_truthy a : (a || JNull)%js = first_truthy [a].
Proof. reflexivity. Qed.

Lemma js_or2_first_truthy a b : (a || b || JNull)%js = first_truthy [a; b].
Proof. unfold js_or. simpl. destruct (truthy a) eqn:Ta; [now rewrite Ta | reflexivity]. Qed.



Lemma named_refl name m : table_name m = name -> named name m = true.
Proof. intros <-. apply String.eqb_refl. Qed.


Lemma dropTable_run h mac st :
  let name := sanitizeMacForTableName mac in
  dropTable h mac st =
  if isConnected st then
    if accepts h name then (Ok tt, dropped st name)
    else (Err (SyntaxError name), st)
  else (Err NotConnected, st).
Proof.
  intros name. unfold dropTable. fold name.
  unfold bind at 1. rewrite require_connected_run.
  destruct (isConnected st); [|reflexivity].
  unfold bind at 1. rewrite on_table_run.
  destruct (accepts h name); reflexivity.
Qed.



Lemma store_write_as_write_device h now w :
  store_write h now w
  = write_device h now (write_key w) (write_kind w) (row_of h now w).
Proof. destruct w; reflexivity. Qed.

Lemma typed_of_row_of h now w i : typed_of (row_of h now w i) = extracted h w.
Proof.
  destruct w; unfold typed_of, extracted, row_of, device_row;
    cbn [rssi temperature battery_percentage distance weight];
    rewrite ?js_or2_first_truthy, ?js_or_first_truthy; reflexivity.
Qed.

(** What a write stores in the typed columns: for each column the
    first of its candidates that is truthy, [NULL] when none is.  A
    field the payload does not have reads as [undefined], which is not
    truthy; neither are 0, [NaN], the empty string, [false] and
    [null]. *)
Lemma typed_fields_stored h now w st st' :
  store_write h now w st = (Ok tt, st') ->
  exists t r,
    tables st' !! table_key (sanitizeMacForTableName (write_key w)) = Some t
    /\ last (rows t) = Some r
    /\ data_type r = write_kind w
    /\ typed_of r = extracted h w.
Proof.
  rewrite store_write_as_write_device. intros H.
  apply write_device_ok in H as (_ & _ & _ & Ht & _).
  eexists _, _. rewrite Ht, lookup_insert_eq. split; [reflexivity|].
  simpl. rewrite last_snoc. split; [reflexivity|].
  split; [|apply typed_of_row_of]. destruct w; reflexivity.
Qed.









(** C5 (amended): on a connected store, [queryData] for a hardware
    address that has no table is rejected with the engine's error (no
    such table, or a syntax error when the engine refuses the name) and
    leaves the store as it was; it does not return an empty
    sequence. *)
Theorem queryData_without_table h k o st :
  valid_key k = true ->
  isConnected st = true ->
  tables st !! table_key (sanitizeMacForTableName k) = None ->
  let name := sanitizeMacForTableName k in
  queryData h k o st
  = (Err (if accepts h name then NoSuchTable name else SyntaxError name), st).
Proof.
  intros _ Hc Ht name. unfold queryData. fold name.
  erewrite bind_run by (rewrite require_connected_run, Hc; reflexivity).
  unfold bind. rewrite on_table_run. unfold select_from. fold name in Ht.
  rewrite Ht. now destruct (accepts h name).
Qed.

(** ** Cleanup *)

(** [olderThanDays || retention_days]: zero days is no days given. *)
Lemma cleanupOldData_zero_days h now mac st :
  cleanupOldData h now mac (JNum (Num 0)) st = cleanupOldData h now mac JNull st.
Proof. reflexivity. Qed.

(** What a cleanup for one key has done when it returns: the rows
    whose [created_at] text sorts before the ISO text of the cutoff are
    gone, and their number is returned. *)
Lemma cleanupOldData_keyed_ok h now c m days st n st' :
  cleanupOldData h now (Some (String c m)) days st = (Ok n, st') ->
  let name := sanitizeMacForTableName (String c m) in
  exists t cutoff,
    tables st !! table_key name = Some t
    /\ cutoffDate h now (days || field (config st) "retention_days")%js = Some cutoff
    /\ (tables st' = <[table_key name := without_older (Time.toISOString cutoff) t]> (tables st))
    /\ n = older_count (Time.toISOString cutoff) t.
Proof.
  intros H name. unfold cleanupOldData in H. fold name in H.
  apply bind_inv_ok in H as ([] & st1 & H1 & H).
  rewrite require_connected_run in H1.
  destruct (isConnected st); [|discriminate]. injection H1 as <-.
  unfold bind at 1 in H. unfold get_state at 1 in H.
  apply bind_inv_ok in H as (iso & st1 & H1 & H).
  destruct (cutoffDate h now _) as [cutoff|] eqn:Hcut; [|discriminate].
  injection H1 as <- <-.
  apply bind_inv_ok in H as (changes & st2 & H2 & H).
  apply bind_inv_ok in H as ([] & st3 & H3 & H4).
  injection H4 as <- <-.
  rewrite on_table_run in H2. destruct (accepts h name); [|discriminate].
  unfold delete_older in H2.
  destruct (tables st !! table_key name) as [t|] eqn:Ht; [|discriminate].
  injection H2 as <- <-.
  apply updateMetadata_frame in H3 as (Ht3 & _). simpl in Ht3.
  exists t, cutoff. repeat split; auto.
Qed.

Lemma delete_older_frame name iso st r st' κ :
  delete_older name iso st = (r, st') ->
  κ <> table_key name ->
  tables st' !! κ = tables st !! κ /\ metadata st' = metadata st.
Proof.
  unfold delete_older. intros H Hne.
  destruct (tables st !! table_key name); injection H as <- <-; simpl; auto.
  split; [apply lookup_insert_ne; congruence | reflexivity].
Qed.

(** The loop of the key-less cleanup touches the tables it is given and
    no other, whether it ends or throws. *)
Lemma cleanup_each_frame h now cutoff names total st r st' κ :
  cleanup_each h now cutoff names total st = (r, st') ->
  Forall (fun name => table_key name <> κ) names ->
  tables st' !! κ = tables st !! κ.
Proof.
  revert total st. induction names as [|name names IH]; intros total st H Hκ.
  - injection H as <- <-. reflexivity.
  - apply Forall_cons in Hκ as [Hname Hrest]. simpl in H.
    apply bind_inv in H as [(e & H & _) | (iso & st1 & H1 & H)].
    { destruct cutoff; [discriminate|]. injection H as _ <-. reflexivity. }
    assert (st1 = st) as ->.
    { destruct cutoff; [injection H1 as _ <-; reflexivity | discriminate]. }
    apply bind_inv in H as [(e & H & _) | (changes & st2 & H2 & H)].
    { rewrite on_table_run in H. destruct (accepts h name).
      - apply (delete_older_frame _ _ _ _ _ κ) in H as [-> _]; [reflexivity | congruence].
      - injection H as _ <-. reflexivity. }
    assert (Hst2 : tables st2 !! κ = tables st !! κ).
    { rewrite on_table_run in H2. destruct (accepts h name); [|discriminate].
      apply (delete_older_frame _ _ _ _ _ κ) in H2 as [-> _]; [reflexivity | congruence]. }
    apply bind_inv in H as [(e & H & _) | ([] & st3 & H3 & H)].
    { apply updateMetadata_frame in H as (-> & _). exact Hst2. }
    apply updateMetadata_frame in H3 as (Hst3 & _).
    rewrite (IH _ _ H Hrest), Hst3. exact Hst2.
Qed.

Lemma cleanupOldData_keyless_frame h now days st κ :
  Forall (fun m => table_key (table_name m) <> κ) (metadata st) ->
  tables (state_after (cleanupOldData h now None days) st) !! κ = tables st !! κ.
Proof.
  intros Hm. unfold state_after.
  destruct (cleanupOldData h now None days st) as [r st'] eqn:H. simpl.
  unfold cleanupOldData in H.
  apply bind_inv in H as [(e & H & _) | ([] & st1 & H1 & H)].
  { rewrite require_connected_run in H. destruct (isConnected st); [discriminate|].
    injection H as _ <-. reflexivity. }
  rewrite require_connected_run in H1.
  destruct (isConnected st); [|discriminate]. injection H1 as <-.
  unfold bind at 1 in H. unfold get_state at 1 in H.
  apply (cleanup_each_frame _ _ _ _ _ _ _ _ κ) in H; [exact H|].
  apply Forall_map. exact Hm.
Qed.

Lemma storeEnvironmentData_metadata now data st :
  metadata (state_after (storeEnvironmentData now data) st) = metadata st.
Proof.
  unfold state_after, storeEnvironmentData.
  unfold bind at 1. rewrite require_connected_run.
  destruct (isConnected st); [|reflexivity].
  unfold bind at 1. unfold get_state at 1.
  unfold bind at 1.
  destruct (decide (ENVIRONMENT_DATA ∈ createdTables st)).
  - unfold ret at 1. unfold insert_into.
    destruct (tables st !! _) as [t|]; [|reflexivity].
    destruct (schema_eqb _ _); reflexivity.
  - unfold bind, create_table_if_not_exists, get_state, put_state, insert_into.
    destruct (tables st !! table_key ENVIRONMENT_DATA) as [t|] eqn:Ht; simpl.
    + rewrite Ht. destruct (schema_eqb _ _); reflexivity.
    + rewrite lookup_insert_eq. reflexivity.
Qed.

(** C9: storing an environment record leaves [biocv_metadata] as it
    was, and a cleanup without a key, whatever the retention and the
    clock and whether it ends or throws, leaves the rows of
    [ENVIRONMENT_DATA] as they were, as long as no metadata row names
    that table. *)
Theorem keyless_cleanup_spares_environment h now now' days data st :
  Forall (fun m => table_key (table_name m) <> ENVIRONMENT_DATA) (metadata st) ->
  let st1 := state_after (storeEnvironmentData now data) st in
  metadata st1 = metadata st
  /\ tables (state_after (cleanupOldData h now' None days) st1) !! ENVIRONMENT_DATA
     = tables st1 !! ENVIRONMENT_DATA
  /\ tables (state_after (cleanupOldData h now' None days) st) !! ENVIRONMENT_DATA
     = tables st !! ENVIRONMENT_DATA.
Proof.
  intros Hm st1.
  pose proof (storeEnvironmentData_metadata now data st) as Hmeta. fold st1 in Hmeta.
  split; [exact Hmeta|]. split.
  - apply cleanupOldData_keyless_frame. now rewrite Hmeta.
  - now apply cleanupOldData_keyless_frame.
Qed.

(** ** Sorting *)

Section Sorting.

Context {A : Type} (precedes : A -> A -> bool) (R : A -> A -> Prop).
Hypothesis precedes_sound : forall x y, precedes x y = true -> R x y.
Hypothesis precedes_total : forall x y, precedes x y = false -> R y x.
Hypothesis R_trans : forall x y z, R x y -> R y z -> R x z.

Lemma insert_sorted_perm x l : Permutation (insert_sorted precedes x l) (x :: l).
Proof.
  induction l as [|y l IH]; simpl; [reflexivity|].
  destruct (precedes x y); [reflexivity|].
  rewrite IH. apply perm_swap.
Qed.

Lemma stable_sort_perm l : Permutation (stable_sort precedes l) l.
Proof.
  induction l as [|x l IH]; simpl; [reflexivity|].
  rewrite insert_sorted_perm. now constructor.
Qed.

Lemma Forall_insert_sorted (P : A -> Prop) x l :
  P x -> Forall P l -> Forall P (insert_sorted precedes x l).
Proof.
  intros Hx Hl. induction Hl as [|y l Hy Hl IH]; simpl.
  - constructor; [exact Hx | constructor].
  - destruct (precedes x y); repeat constructor; assumption.
Qed.

Lemma insert_sorted_sorted x l :
  StronglySorted R l -> StronglySorted R (insert_sorted precedes x l).
Proof.
  induction 1 as [|y l Hs IH Hy]; simpl.
  - repeat constructor.
  - destruct (precedes x y) eqn:E.
    + constructor; [now constructor|].
      constructor; [now apply precedes_sound|].
      eapply Forall_impl; [exact Hy|]. intros z. apply R_trans.
      now apply precedes_sound.
    + constructor; [exact IH|].
      apply Forall_insert_sorted; [now apply precedes_total | exact Hy].
Qed.

Lemma stable_sort_sorted l : StronglySorted R (stable_sort precedes l).
Proof.
  induction l as [|x l IH]; simpl; [constructor | now apply insert_sorted_sorted].
Qed.

End Sorting.

Lemma firstn_sorted {A} (R : A -> A -> Prop) n l :
  StronglySorted R l -> StronglySorted R (firstn n l).
Proof.
  revert n. induction l as [|x l IH]; intros n Hs.
  - destruct n; constructor.
  - destruct n as [|n]; [constructor|]. simpl.
    apply StronglySorted_inv in Hs as [Hs Hx].
    constructor; [now apply IH | now apply Forall_take].
Qed.




(** ** Text order *)

Lemma ascii_compare_lt_trans a b c :
  Ascii.compare a b = Lt -> Ascii.compare b c = Lt -> Ascii.compare a c = Lt.
Proof.
  unfold Ascii.compare. rewrite !N.compare_lt_iff. lia.
Qed.

Lemma string_compare_lt_trans s1 : forall s2 s3,
  String.compare s1 s2 = Lt -> String.compare s2 s3 = Lt -> String.compare s1 s3 = Lt.
Proof.
  induction s1 as [|a s1 IH]; intros [|b s2] [|c s3]; simpl; try congruence.
  destruct (Ascii.compare a b) eqn:Eab; try discriminate.
  - apply Ascii.compare_eq_iff in Eab. subst b.
    destruct (Ascii.compare a c) eqn:Eac; try congruence. apply IH.
  - intros _. destruct (Ascii.compare b c) eqn:Ebc; try discriminate.
    + apply Ascii.compare_eq_iff in Ebc. subst c. now rewrite Eab.
    + intros _. now rewrite (ascii_compare_lt_trans a b c Eab Ebc).
Qed.

Lemma ltb_asym s1 s2 : String.ltb s1 s2 = true -> String.ltb s2 s1 = false.
Proof.
  unfold String.ltb. rewrite (String.compare_antisym s2 s1).
  destruct (String.compare s1 s2); simpl; congruence.
Qed.

Lemma ltb_irrefl s : String.ltb s s = false.
Proof.
  destruct (String.ltb s s) eqn:E; [|reflexivity].
  pose proof (ltb_asym s s E). congruence.
Qed.

Lemma ltb_trans s1 s2 s3 :
  String.ltb s1 s2 = true -> String.ltb s2 s3 = true -> String.ltb s1 s3 = true.
Proof.
  unfold String.ltb.
  destruct (String.compare s1 s2) eqn:E12; try discriminate.
  destruct (String.compare s2 s3) eqn:E23; try discriminate.
  now rewrite (string_compare_lt_trans _ _ _ E12 E23).
Qed.

Lemma text_le_refl s : text_le s s.
Proof. apply ltb_irrefl. Qed.

Lemma text_le_total s1 s2 : text_le s1 s2 \/ text_le s2 s1.
Proof.
  unfold text_le. destruct (String.ltb s2 s1) eqn:E; [right | now left].
  now apply ltb_asym.
Qed.

Lemma text_le_trans s1 s2 s3 : text_le s1 s2 -> text_le s2 s3 -> text_le s1 s3.
Proof.
  unfold text_le, String.ltb. intros H12 H23.
  destruct (String.compare s3 s1) eqn:E31; try reflexivity. exfalso.
  destruct (String.compare s2 s1) eqn:E21; try discriminate.
  - apply String.compare_eq_iff in E21. subst s2. now rewrite E31 in H23.
  - rewrite String.compare_antisym in E21.
    destruct (String.compare s1 s2) eqn:E12; try discriminate.
    now rewrite (string_compare_lt_trans _ _ _ E31 E12) in H23.
Qed.

Lemma order_by_timestamp_desc_sorted h o l :
  StronglySorted text_not_older (order_by_timestamp_desc h o l).
Proof.
  apply stable_sort_sorted; unfold text_desc, text_not_older, timestamp_text, text_le.
  - intros x y H.
    destruct (String.ltb (Time.sqlite_datetime (timestamp y))
                (Time.sqlite_datetime (timestamp x))) eqn:E; [now apply ltb_asym|].
    destruct (String.ltb (Time.sqlite_datetime (timestamp x))
                (Time.sqlite_datetime (timestamp y))); [discriminate | reflexivity].
  - intros x y H.
    destruct (String.ltb (Time.sqlite_datetime (timestamp y))
                (Time.sqlite_datetime (timestamp x))); [discriminate | reflexivity].
  - intros x y z Hxy Hyz. exact (text_le_trans _ _ _ Hyz Hxy).
Qed.

Lemma order_by_timestamp_desc_perm h o l : Permutation (order_by_timestamp_desc h o l) l.
Proof. apply stable_sort_perm. Qed.



(** ** Queries *)



Lemma environment_not_scanned st : ~ In ENVIRONMENT_DATA (device_tables st).
Proof.
  unfold device_tables. rewrite filter_In. intros [_ H].
  now rewrite String.eqb_refl in H.
Qed.

Lemma selected_sorted_permutation h o t :
  Permutation (selected h o t) (List.filter (matches h o) (rows t))
  /\ StronglySorted text_not_older (selected h o t).
Proof.
  unfold selected.
  split; [apply order_by_timestamp_desc_perm | apply order_by_timestamp_desc_sorted].
Qed.



(** ** Invariants of the store *)

Section Keeps.

Variable Inv : store -> Prop.

Lemma keeps_ret {A} (a : A) : keeps Inv (ret a).
Proof. intros st H. exact H. Qed.

Lemma keeps_throw {A} (e : error) : keeps Inv (@throw A e).
Proof. intros st H. exact H. Qed.

Lemma keeps_get : keeps Inv get_state.
Proof. intros st H. exact H. Qed.

Lemma keeps_bind {A B} (m : M A) (f : A -> M B) :
  keeps Inv m -> (forall a, keeps Inv (f a)) -> keeps Inv (bind m f).
Proof.
  intros Hm Hf st H. unfold bind. specialize (Hm st H).
  destruct (m st) as [[a|e] st1]; simpl in *; [now apply Hf | exact Hm].
Qed.

(** [this.x = f(this.x)]: the state is read and written back
    changed. *)
Lemma keeps_modify (f : store -> store) :
  (forall st, Inv st -> Inv (f st)) ->
  keeps Inv (bind get_state (fun st => put_state (f st))).
Proof. intros Hf st H. simpl. now apply Hf. Qed.

Lemma keeps_on_table {A} h name (m : M A) : keeps Inv m -> keeps Inv (on_table h name m).
Proof. intros Hm. unfold on_table. destruct (accepts h name); [exact Hm | apply keeps_throw]. Qed.

Lemma keeps_require_connected : keeps Inv require_connected.
Proof.
  apply keeps_bind; [apply keeps_get|]. intros st.
  destruct (isConnected st); [apply keeps_ret | apply keeps_throw].
Qed.

Lemma keeps_cutoff_text cutoff : keeps Inv (cutoff_text cutoff).
Proof. destruct cutoff; [apply keeps_ret | apply keeps_throw]. Qed.

End Keeps.

Section RegisteredNames.

Variable P : string -> Prop.

Lemma keeps_same_metadata {A} (m : M A) :
  (forall st, metadata (snd (m st)) = metadata st) -> keeps (registered_names P) m.
Proof. intros E st H. unfold registered_names in *. now rewrite E. Qed.

Lemma keeps_create_table name c : keeps (registered_names P) (create_table_if_not_exists name c).
Proof.
  apply keeps_same_metadata. intros st. unfold create_table_if_not_exists.
  now destruct (tables st !! table_key name).
Qed.

Lemma keeps_insert_into name c mk : keeps (registered_names P) (insert_into name c mk).
Proof.
  apply keeps_same_metadata. intros st. unfold insert_into.
  destruct (tables st !! table_key name) as [t|]; [|reflexivity].
  now destruct (schema_eqb (columns t) c).
Qed.

Lemma keeps_select_from h name o p : keeps (registered_names P) (select_from h name o p).
Proof.
  apply keeps_same_metadata. intros st. unfold select_from.
  now destruct (tables st !! table_key name).
Qed.

Lemma keeps_count_rows name : keeps (registered_names P) (count_rows name).
Proof.
  apply keeps_same_metadata. intros st. unfold count_rows.
  now destruct (tables st !! table_key name).
Qed.

Lemma keeps_delete_older name iso : keeps (registered_names P) (delete_older name iso).
Proof.
  apply keeps_same_metadata. intros st. unfold delete_older.
  now destruct (tables st !! table_key name).
Qed.

Lemma keeps_drop_table name : keeps (registered_names P) (drop_table_if_exists name).
Proof. now apply keeps_same_metadata. Qed.

Lemma keeps_insert_metadata name mac s : P name -> keeps (registered_names P) (insert_or_ignore_metadata name mac s).
Proof.
  intros HP st H. unfold insert_or_ignore_metadata.
  destruct (existsb (named name) (metadata st)); [exact H|].
  unfold registered_names in *. simpl. apply Forall_app. split; [exact H|].
  constructor; [exact HP | constructor].
Qed.

Lemma keeps_update_metadata name count types s : keeps (registered_names P) (update_metadata name count types s).
Proof.
  intros st H. unfold registered_names, update_metadata in *. simpl.
  induction H as [|m ms Hm Hms IH]; simpl; constructor; [|exact IH].
  now destruct (named name m).
Qed.

Lemma keeps_delete_metadata name : keeps (registered_names P) (delete_metadata name).
Proof.
  intros st H. unfold registered_names, delete_metadata in *. simpl.
  induction H as [|m ms Hm Hms IH]; simpl; [constructor|].
  destruct (named name m); simpl; [exact IH | now constructor].
Qed.

Lemma keeps_updateMetadata h now name k : keeps (registered_names P) (updateMetadata h now name k).
Proof.
  unfold updateMetadata. apply keeps_bind; [apply keeps_get | intros st].
  apply keeps_bind; [apply keeps_on_table, keeps_count_rows | intros count].
  apply keeps_update_metadata.
Qed.

Lemma keeps_createTableForMac h now mac :
  P (sanitizeMacForTableName mac) -> keeps (registered_names P) (createTableForMac h now mac).
Proof.
  intros HP. unfold createTableForMac.
  apply keeps_bind; [apply keeps_get | intros st].
  destruct (decide (_ ∈ createdTables st)); [apply keeps_ret|].
  apply keeps_bind; [apply keeps_on_table, keeps_create_table | intros _].
  apply keeps_bind; [now apply keeps_insert_metadata | intros _].
  apply keeps_bind; [|intros _; apply keeps_ret].
  apply keeps_modify. intros st' H. exact H.
Qed.

Lemma keeps_store_write h now w :
  P (sanitizeMacForTableName (write_key w)) -> keeps (registered_names P) (store_write h now w).
Proof.
  intros HP. rewrite store_write_as_write_device. unfold write_device.
  apply keeps_bind; [apply keeps_require_connected | intros _].
  apply keeps_bind; [now apply keeps_createTableForMac | intros name].
  apply keeps_bind; [apply keeps_on_table, keeps_insert_into | intros _].
  apply keeps_updateMetadata.
Qed.

Lemma keeps_storeEnvironmentData now data : keeps (registered_names P) (storeEnvironmentData now data).
Proof.
  unfold storeEnvironmentData.
  apply keeps_bind; [apply keeps_require_connected | intros _].
  apply keeps_bind; [apply keeps_get | intros st].
  apply keeps_bind; [|intros _; apply keeps_insert_into].
  destruct (decide (_ ∈ createdTables st)); [apply keeps_ret|].
  apply keeps_bind; [apply keeps_create_table | intros _].
  apply keeps_modify. intros st' H. exact H.
Qed.

Lemma keeps_queryData h mac o : keeps (registered_names P) (queryData h mac o).
Proof.
  unfold queryData.
  apply keeps_bind; [apply keeps_require_connected | intros _].
  apply keeps_bind; [apply keeps_on_table, keeps_select_from | intros rs].
  apply keeps_ret.
Qed.

Lemma keeps_query_each h o names acc : keeps (registered_names P) (query_each h o names acc).
Proof.
  revert acc. induction names as [|name names IH]; intros acc; simpl.
  - apply keeps_ret.
  - apply keeps_bind; [apply keeps_on_table, keeps_select_from | intros rs]. apply IH.
Qed.

Lemma keeps_queryAllData h o : keeps (registered_names P) (queryAllData h o).
Proof.
  unfold queryAllData.
  apply keeps_bind; [apply keeps_require_connected | intros _].
  apply keeps_bind; [apply keeps_get | intros st].
  apply keeps_bind; [apply keeps_query_each | intros rs]. apply keeps_ret.
Qed.

Lemma keeps_cleanup_each h now cutoff names total :
  keeps (registered_names P) (cleanup_each h now cutoff names total).
Proof.
  revert total. induction names as [|name names IH]; intros total; simpl.
  - apply keeps_ret.
  - apply keeps_bind; [apply keeps_cutoff_text | intros iso].
    apply keeps_bind; [apply keeps_on_table, keeps_delete_older | intros n].
    apply keeps_bind; [apply keeps_updateMetadata | intros _]. apply IH.
Qed.

Lemma keeps_cleanupOldData h now mac days : keeps (registered_names P) (cleanupOldData h now mac days).
Proof.
  unfold cleanupOldData.
  apply keeps_bind; [apply keeps_require_connected | intros _].
  apply keeps_bind; [apply keeps_get | intros st].
  destruct mac as [[|c m]|]; try apply keeps_cleanup_each.
  apply keeps_bind; [apply keeps_cutoff_text | intros iso].
  apply keeps_bind; [apply keeps_on_table, keeps_delete_older | intros n].
  apply keeps_bind; [apply keeps_updateMetadata | intros _]. apply keeps_ret.
Qed.

Lemma keeps_dropTable h mac : keeps (registered_names P) (dropTable h mac).
Proof.
  unfold dropTable.
  apply keeps_bind; [apply keeps_require_connected | intros _].
  apply keeps_bind; [apply keeps_on_table, keeps_drop_table | intros _].
  apply keeps_bind; [apply keeps_delete_metadata | intros _].
  apply keeps_modify. intros st' H. exact H.
Qed.

End RegisteredNames.

Lemma map_chars_length f s : String.length (Str.map_chars f s) = String.length s.
Proof. induction s as [|c s IH]; simpl; [reflexivity | now rewrite IH]. Qed.

Lemma hex_groups_length n s :
  hex_groups n s = true -> String.length s = (3 * n - 1)%nat.
Proof.
  revert s. induction n as [|n IH]; intros s H; [discriminate H|].
  destruct s as [|a [|b [|c rest]]]; try (destruct n; simpl in H; discriminate H).
  - destruct n as [|n']; [reflexivity | simpl in H; discriminate H].
  - assert (H' : is_hex_digit a && is_hex_digit b && Ascii.eqb c ":"
                 && hex_groups n rest = true).
    { destruct n as [|n']; exact H. }
    rewrite !andb_true_iff in H'. destruct H' as [_ Hr].
    simpl. rewrite (IH _ Hr).
    destruct n as [|n']; [discriminate Hr | lia].
Qed.

(** The table of a hardware address is not the environment table. *)
Lemma valid_key_not_environment k :
  valid_key k = true -> table_key (sanitizeMacForTableName k) <> ENVIRONMENT_DATA.
Proof.
  intros H E. apply (f_equal String.length) in E. revert E.
  unfold table_key, Str.toUpperCase. rewrite map_chars_length, sanitize_as_map, map_chars_length.
  rewrite (hex_groups_length 6 k H). discriminate.
Qed.

(** On every store a program reaches by calls for hardware addresses,
    no metadata row names the environment table. *)
Lemma reachable_environment_unregistered h st :
  reachable h st ->
  registered_names (fun n => table_key n <> ENVIRONMENT_DATA) st.
Proof.
  induction 1 as [c | c st Hr IH Hc].
  - constructor.
  - destruct c; simpl.
    + unfold state_after, initialize. now destruct (isConnected st).
    + exact IH.
    + apply keeps_store_write; [now apply valid_key_not_environment | exact IH].
    + now apply keeps_storeEnvironmentData.
    + now apply keeps_queryData.
    + now apply keeps_queryAllData.
    + now apply keeps_cleanupOldData.
    + now apply keeps_dropTable.
Qed.

(** On every store a program reaches, the registered tables are those
    of hardware addresses. *)
Lemma reachable_device_tables h st :
  reachable h st -> registered_names device_table st.
Proof.
  induction 1 as [c | c st Hr IH Hc].
  - constructor.
  - destruct c; simpl.
    + unfold state_after, initialize. now destruct (isConnected st).
    + exact IH.
    + apply keeps_store_write; [|exact IH]. exists (write_key w). auto.
    + now apply keeps_storeEnvironmentData.
    + now apply keeps_queryData.
    + now apply keeps_queryAllData.
    + now apply keeps_cleanupOldData.
    + now apply keeps_dropTable.
Qed.

Section TablesBehindMetadata.

Variable h : host.

(** A statement that leaves the metadata alone and no table away. *)
Lemma keeps_growing_tables {A} (m : M A) :
  (forall st, metadata (snd (m st)) = metadata st
              /\ forall κ, is_Some (tables st !! κ) -> is_Some (tables (snd (m st)) !! κ)) ->
  keeps (tables_behind_metadata h) m.
Proof.
  intros E st H. destruct (E st) as [Em Et].
  unfold tables_behind_metadata in *. rewrite Em.
  eapply Forall_impl; [exact H|]. intros m' (Ha & Hk & Hs). auto.
Qed.

Lemma is_Some_insert (ts : gmap string table) κ κ' t :
  is_Some (ts !! κ) -> is_Some (<[κ' := t]> ts !! κ).
Proof.
  intros H. destruct (decide (κ' = κ)) as [->|Hne].
  - rewrite lookup_insert_eq. eauto.
  - now rewrite lookup_insert_ne.
Qed.

Lemma tbm_create_table name c : keeps (tables_behind_metadata h) (create_table_if_not_exists name c).
Proof.
  apply keeps_growing_tables. intros st. unfold create_table_if_not_exists.
  destruct (tables st !! table_key name); simpl; split; auto.
  intros κ. apply is_Some_insert.
Qed.

Lemma tbm_insert_into name c mk : keeps (tables_behind_metadata h) (insert_into name c mk).
Proof.
  apply keeps_growing_tables. intros st. unfold insert_into.
  destruct (tables st !! table_key name) as [t|]; [|auto].
  destruct (schema_eqb (columns t) c); simpl; split; auto.
  intros κ. apply is_Some_insert.
Qed.

Lemma tbm_select_from name o p : keeps (tables_behind_metadata h) (select_from h name o p).
Proof.
  apply keeps_growing_tables. intros st. unfold select_from.
  destruct (tables st !! table_key name); auto.
Qed.

Lemma tbm_count_rows name : keeps (tables_behind_metadata h) (count_rows name).
Proof.
  apply keeps_growing_tables. intros st. unfold count_rows.
  destruct (tables st !! table_key name); auto.
Qed.

Lemma tbm_delete_older name iso : keeps (tables_behind_metadata h) (delete_older name iso).
Proof.
  apply keeps_growing_tables. intros st. unfold delete_older.
  destruct (tables st !! table_key name); simpl; split; auto.
  intros κ. apply is_Some_insert.
Qed.

Lemma tbm_update_metadata name count types s : keeps (tables_behind_metadata h) (update_metadata name count types s).
Proof.
  intros st H. unfold tables_behind_metadata, update_metadata in *. simpl.
  induction H as [|m ms Hm Hms IH]; simpl; constructor; [|exact IH].
  now destruct (named name m).
Qed.

Lemma tbm_updateMetadata now name k : keeps (tables_behind_metadata h) (updateMetadata h now name k).
Proof.
  unfold updateMetadata. apply keeps_bind; [apply keeps_get | intros st].
  apply keeps_bind; [apply keeps_on_table, tbm_count_rows | intros count].
  apply tbm_update_metadata.
Qed.

Lemma tbm_createTableForMac now mac : keeps (tables_behind_metadata h) (createTableForMac h now mac).
Proof.
  intros st H. rewrite createTableForMac_run.
  destruct (decide (_ ∈ createdTables st)); [exact H|].
  destruct (accepts h _) eqn:Ha; [|exact H].
  unfold tables_behind_metadata, insert_or_ignore_metadata in *. simpl.
  assert (Hold : Forall (fun m =>
            accepts h (table_name m) = true
            /\ table_key (table_name m) = table_name m
            /\ is_Some (<[table_key (sanitizeMacForTableName mac) :=
                            table_or_new st (sanitizeMacForTableName mac)]> (tables st)
                        !! table_key (table_name m))) (metadata st)).
  { eapply Forall_impl; [exact H|]. intros m (? & ? & ?).
    repeat split; auto. now apply is_Some_insert. }
  destruct (existsb _ (metadata st)); simpl; [exact Hold|].
  apply Forall_app. split; [exact Hold|].
  constructor; [|constructor]. simpl.
  split; [exact Ha|]. split; [apply table_key_sanitize|].
  rewrite lookup_insert_eq. eauto.
Qed.

Lemma tbm_store_write now w : keeps (tables_behind_metadata h) (store_write h now w).
Proof.
  rewrite store_write_as_write_device. unfold write_device.
  apply keeps_bind; [apply keeps_require_connected | intros _].
  apply keeps_bind; [apply tbm_createTableForMac | intros name].
  apply keeps_bind; [apply keeps_on_table, tbm_insert_into | intros _].
  apply tbm_updateMetadata.
Qed.

Lemma tbm_storeEnvironmentData now data : keeps (tables_behind_metadata h) (storeEnvironmentData now data).
Proof.
  unfold storeEnvironmentData.
  apply keeps_bind; [apply keeps_require_connected | intros _].
  apply keeps_bind; [apply keeps_get | intros st].
  apply keeps_bind; [|intros _; apply tbm_insert_into].
  destruct (decide (_ ∈ createdTables st)); [apply keeps_ret|].
  apply keeps_bind; [apply tbm_create_table | intros _].
  apply keeps_modify. intros st' H. exact H.
Qed.

Lemma tbm_queryData mac o : keeps (tables_behind_metadata h) (queryData h mac o).
Proof.
  unfold queryData.
  apply keeps_bind; [apply keeps_require_connected | intros _].
  apply keeps_bind; [apply keeps_on_table, tbm_select_from | intros rs].
  apply keeps_ret.
Qed.

Lemma tbm_query_each o names acc : keeps (tables_behind_metadata h) (query_each h o names acc).
Proof.
  revert acc. induction names as [|name names IH]; intros acc; simpl.
  - apply keeps_ret.
  - apply keeps_bind; [apply keeps_on_table, tbm_select_from | intros rs]. apply IH.
Qed.

Lemma tbm_queryAllData o : keeps (tables_behind_metadata h) (queryAllData h o).
Proof.
  unfold queryAllData.
  apply keeps_bind; [apply keeps_require_connected | intros _].
  apply keeps_bind; [apply keeps_get | intros st].
  apply keeps_bind; [apply tbm_query_each | intros rs]. apply keeps_ret.
Qed.

Lemma tbm_cleanup_each now cutoff names total :
  keeps (tables_behind_metadata h) (cleanup_each h now cutoff names total).
Proof.
  revert total. induction names as [|name names IH]; intros total; simpl.
  - apply keeps_ret.
  - apply keeps_bind; [apply keeps_cutoff_text | intros iso].
    apply keeps_bind; [apply keeps_on_table, tbm_delete_older | intros n].
    apply keeps_bind; [apply tbm_updateMetadata | intros _]. apply IH.
Qed.

Lemma tbm_cleanupOldData now mac days : keeps (tables_behind_metadata h) (cleanupOldData h now mac days).
Proof.
  unfold cleanupOldData.
  apply keeps_bind; [apply keeps_require_connected | intros _].
  apply keeps_bind; [apply keeps_get | intros st].
  destruct mac as [[|c m]|]; try apply tbm_cleanup_each.
  apply keeps_bind; [apply keeps_cutoff_text | intros iso].
  apply keeps_bind; [apply keeps_on_table, tbm_delete_older | intros n].
  apply keeps_bind; [apply tbm_updateMetadata | intros _]. apply keeps_ret.
Qed.

Lemma tbm_dropTable mac : keeps (tables_behind_metadata h) (dropTable h mac).
Proof.
  intros st H. rewrite dropTable_run.
  destruct (isConnected st); [|exact H].
  destruct (accepts h _); [|exact H].
  unfold tables_behind_metadata in *. simpl.
  induction H as [|m ms (Ha & Hk & Hs) Hms IH]; simpl; [constructor|].
  destruct (named _ m) eqn:Hn; simpl; [exact IH|].
  constructor; [|exact IH]. split; [exact Ha|]. split; [exact Hk|].
  rewrite lookup_delete_ne; [exact Hs|].
  rewrite table_key_sanitize, Hk. intros E.
  unfold named in Hn. rewrite E, String.eqb_refl in Hn. discriminate.
Qed.

Lemma reachable_tables_behind_metadata st :
  reachable h st -> tables_behind_metadata h st.
Proof.
  induction 1 as [c | c st Hr IH Hc].
  - constructor.
  - destruct c; simpl.
    + unfold state_after, initialize. now destruct (isConnected st).
    + exact IH.
    + now apply tbm_store_write.
    + now apply tbm_storeEnvironmentData.
    + now apply tbm_queryData.
    + now apply tbm_queryAllData.
    + now apply tbm_cleanupOldData.
    + now apply tbm_dropTable.
Qed.

Lemma query_each_returns o names acc st :
  Forall (fun name => accepts h name = true
                      /\ is_Some (tables st !! table_key name)) names ->
  exists res, query_each h o names acc st = (Ok res, st).
Proof.
  intros H. revert acc. induction H as [|name names (Ha & t & Ht) Hn IH]; intros acc; simpl.
  - eexists. reflexivity.
  - erewrite bind_run; [apply IH|].
    rewrite on_table_run, Ha. unfold select_from. rewrite Ht. reflexivity.
Qed.

(** [queryAllData] returns on every connected store whose registered
    tables exist, in particular on one without any table. *)
Lemma queryAllData_returns o st :
  isConnected st = true -> tables_behind_metadata h st ->
  exists res, queryAllData h o st = (Ok res, st).
Proof.
  intros Hc H. unfold queryAllData.
  erewrite bind_run by (rewrite require_connected_run, Hc; reflexivity).
  unfold bind at 1. unfold get_state at 1.
  destruct (query_each_returns o (device_tables st) [] st) as (res & Hq).
  { unfold device_tables. apply List.Forall_forall. intros name Hin.
    apply filter_In in Hin as [Hin _]. apply in_map_iff in Hin as (m & <- & Hm).
    unfold tables_behind_metadata in H. rewrite List.Forall_forall in H.
    destruct (H m Hm) as (? & ? & ?). auto. }
  erewrite bind_run by exact Hq. eexists. reflexivity.
Qed.

End TablesBehindMetadata.

(** On every connected store a program reaches, [queryAllData]
    returns. *)
Lemma reachable_queryAllData_returns h o st :
  reachable h st -> isConnected st = true ->
  exists res, queryAllData h o st = (Ok res, st).
Proof.
  intros Hr Hc. apply queryAllData_returns; [exact Hc|].
  now apply reachable_tables_behind_metadata.
Qed.

(** On every store a program reaches by calls for hardware addresses,
    the cleanup without a key leaves the environment table as it
    was. *)
Lemma reachable_keyless_cleanup h now days st :
  reachable h st ->
  tables (state_after (cleanupOldData h now None days) st) !! ENVIRONMENT_DATA
  = tables st !! ENVIRONMENT_DATA.
Proof.
  intros Hr. apply cleanupOldData_keyless_frame.
  exact (reachable_environment_unregistered h st Hr).
Qed.

(** ** The store on examples *)

Example readme_table_name :
  sanitizeMacForTableName "E8:74:EC:4F:C9:09" = "E8_74_EC_4F_C9_09".
Proof. reflexivity. Qed.

Example current_timestamp_text :
  Time.sqlite_datetime (t0 / 1000) = "2026-11-01 18:00:00".
Proof. reflexivity. Qed.

Example toISOString_text :
  Time.toISOString t0 = "2026-11-01T18:00:00.123Z".
Proof. reflexivity. Qed.

(** Thirty days back from the first of November, and zero days back. *)
Example cutoffDate_default :
  option_map Time.toISOString (cutoffDate node t0 (JNum (Num 30)))
  = Some "2026-10-02T18:00:00.123Z"
  /\ cutoffDate node t0 (JNum (Num 0)) = Some t0.
Proof. vm_compute. split; reflexivity. Qed.

(** A row written on the day of the cutoff sorts before the cutoff
    whatever its hour: a space sorts before the letter T. *)
Example same_day_sorts_before :
  String.ltb "2026-10-02 23:59:59" "2026-10-02T18:00:00.123Z" = true.
Proof. reflexivity. Qed.

(** The engine refuses a table name that starts with a digit. *)
Example digit_first_name_refused :
  result_of (storeSensorData node t0 "00:11:22:33:44:55" reading) fresh
  = Err (SyntaxError "00_11_22_33_44_55").
Proof. vm_compute. reflexivity. Qed.

(** C2: the code at the failing input.  The store has the default
    retention of 30 days and one row, created five days before the
    cleanup; [cleanupOldData(device, 0)] deletes nothing and returns 0,
    although the row was created before the current instant. *)
Theorem cleanup_zero_days_keeps_recent_rows :
  field (config with_reading) "retention_days" = JNum (Num 30)
  /\ (created_before (Time.toISOString five_days_later) <$> last_row with_reading (sanitizeMacForTableName device))
     = Some true
  /\ result_of (cleanupOldData node five_days_later (Some device) (JNum (Num 0)))
       with_reading = Ok 0
  /\ row_total
       (state_after (cleanupOldData node five_days_later (Some device) (JNum (Num 0)))
          with_reading) (sanitizeMacForTableName device) = Some 1%nat.
Proof. vm_compute. repeat split; reflexivity. Qed.

(** C3: the code at the failing inputs.  A temperature of 0 and a
    weight of 0, a battery percentage of 0 and a distance of 0 are in
    the payload and are stored as [NULL]. *)
Theorem zero_readings_stored_as_null :
  zero_reading !! "temperature" = Some (JNum (Num 0))
  /\ zero_reading !! "weight" = Some (JNum (Num 0))
  /\ (typed_of <$> last_row (state_after (storeSensorData node t0 device zero_reading) fresh) (sanitizeMacForTableName device))
     = Some {| f_rssi := JNum (Num (-60 # 1)); f_temperature := JNull;
               f_battery_percentage := JNull; f_distance := JNull;
               f_weight := JNull |}
  /\ (battery_percentage <$> last_row (state_after (storeBatteryData node t0 device empty_battery) fresh) (sanitizeMacForTableName device))
     = Some JNull
  /\ (distance <$> last_row (state_after (storeAntData node t0 anchor device (JNum (Num 0))) fresh) (sanitizeMacForTableName device))
     = Some JNull.
Proof. vm_compute. repeat split; reflexivity. Qed.


(** C5, as the claim states it, fails: on an initialized store with no
    table, [queryData] is rejected. *)
Lemma queryData_unknown_key_rejected :
  isConnected fresh = true
  /\ tables fresh = ∅
  /\ result_of (queryData node device no_options) fresh
     = Err (NoSuchTable "E8_74_EC_4F_C9_09").
Proof. vm_compute. repeat split; reflexivity. Qed.



(** In a zone that sets its clocks forward, [queryAllData] does not
    return the rows by timestamp: the later row comes last, because its
    text, read as a local time, is the earlier instant. *)
Example queryAllData_across_clock_change :
  map timestamp
    (rows_returned (result_of (queryAllData central_europe no_options) spring_readings))
  = [1774751400; 1774753800]
  /\ map (date_of central_europe)
       (rows_returned (result_of (queryAllData central_europe no_options) spring_readings))
     = [1774747800000; 1774746600000].
Proof. vm_compute. split; reflexivity. Qed.





Lemma queryData_without_table_witness :
  queryData node device no_options fresh
  = (Err (NoSuchTable "E8_74_EC_4F_C9_09"), fresh).
Proof.
  apply (queryData_without_table node device no_options fresh); reflexivity.
Defined.



Lemma keyless_cleanup_spares_environment_witness :
  row_total (state_after (cleanupOldData node (t0 + 400 * Time.msPerDay) None JNull)
               two_devices) ENVIRONMENT_DATA
  = Some 1%nat.
Proof.
  assert (H : Forall (fun m => table_key (table_name m) <> ENVIRONMENT_DATA)
                (metadata two_devices)).
  { vm_compute. repeat constructor; discriminate. }
  pose proof (keyless_cleanup_spares_environment node t0 (t0 + 400 * Time.msPerDay)
              JNull climate two_devices H) as (_ & _ & E).
  unfold row_total.
  change (table_key ENVIRONMENT_DATA) with ENVIRONMENT_DATA.
  rewrite E.
  vm_compute. reflexivity.
Defined.


(** * Further properties of the store *)

(** ** The connection guard *)

Lemma guarded_not_connected {A} (m : M A) st :
  isConnected st = false ->
  bind require_connected (fun _ => m) st = (Err NotConnected, st).
Proof.
  intros Hc. unfold bind. rewrite require_connected_run, Hc. reflexivity.
Qed.

(** X1: on a store that is not connected, every method that reads or
    writes data is rejected with the error [Database not connected]
    and leaves the store, and the files, as they were. *)
Theorem not_connected_rejected h now st :
  isConnected st = false ->
  (forall w, store_write h now w st = (Err NotConnected, st))
  /\ (forall data, storeEnvironmentData now data st = (Err NotConnected, st))
  /\ (forall mac o, queryData h mac o st = (Err NotConnected, st))
  /\ (forall o, queryAllData h o st = (Err NotConnected, st))
  /\ (forall mac, getStorageStats h mac st = (Err NotConnected, st))
  /\ (forall mac days, cleanupOldData h now mac days st = (Err NotConnected, st))
  /\ (forall mac, dropTable h mac st = (Err NotConnected, st))
  /\ (forall writable path o files,
        exportToJSON h writable now path o st files
        = (inr (StoreError NotConnected), st, files)).
Proof.
  intros Hc. repeat split; intros.
  - rewrite store_write_as_write_device. now apply guarded_not_connected.
  - now apply guarded_not_connected.
  - now apply guarded_not_connected.
  - now apply guarded_not_connected.
  - now apply guarded_not_connected.
  - now apply guarded_not_connected.
  - now apply guarded_not_connected.
  - unfold exportToJSON. now rewrite Hc.
Qed.

(** ** Reading leaves the store alone *)

Lemma select_from_state h name o p st : snd (select_from h name o p st) = st.
Proof. unfold select_from. now destruct (tables st !! table_key name). Qed.

Lemma queryData_state h mac o st : snd (queryData h mac o st) = st.
Proof.
  unfold queryData, bind. rewrite require_connected_run.
  destruct (isConnected st); [|reflexivity].
  rewrite on_table_run. destruct (accepts h _); [|reflexivity].
  unfold select_from. now destruct (tables st !! _).
Qed.

Lemma query_each_state h o names acc st : snd (query_each h o names acc st) = st.
Proof.
  revert acc. induction names as [|name names IH]; intros acc; simpl; [reflexivity|].
  unfold bind. rewrite on_table_run. destruct (accepts h name); [|reflexivity].
  unfold select_from. destruct (tables st !! table_key name); [apply IH | reflexivity].
Qed.

Lemma queryAllData_state h o st : snd (queryAllData h o st) = st.
Proof.
  unfold queryAllData. unfold bind at 1. rewrite require_connected_run.
  destruct (isConnected st); [|reflexivity].
  unfold bind at 1. unfold get_state at 1. unfold bind.
  pose proof (query_each_state h o (device_tables st) [] st) as H.
  destruct (query_each h o (device_tables st) [] st) as [[rs|e] st1]; simpl in *; now subst.
Qed.



(** ** Queries for one key *)

Lemma sql_limit_sorted {A} (R : A -> A -> Prop) n l :
  StronglySorted R l -> StronglySorted R (sql_limit n l).
Proof. unfold sql_limit. destruct (n <? 0); [auto | apply firstn_sorted]. Qed.

Lemma sql_limit_length {A} n (l : list A) :
  0 <= n -> Z.of_nat (List.length (sql_limit n l)) <= n.
Proof.
  intros Hn. unfold sql_limit. destruct (Z.ltb_spec n 0); [lia|].
  rewrite length_firstn. lia.
Qed.

Lemma sql_limit_all {A} n (l : list A) :
  n < 0 \/ Z.of_nat (List.length l) <= n -> sql_limit n l = l.
Proof.
  intros H. unfold sql_limit. destruct (Z.ltb_spec n 0); [reflexivity|].
  apply firstn_all2. lia.
Qed.

Lemma in_firstn {A} n (l : list A) x : In x (firstn n l) -> In x l.
Proof.
  revert n. induction l as [|y l IH]; intros [|n]; simpl; try tauto.
  intros [->|H]; [now left | right; eauto].
Qed.

Lemma sql_limit_incl {A} n (l : list A) x : In x (sql_limit n l) -> In x l.
Proof.
  unfold sql_limit. destruct (n <? 0); [auto|]. apply in_firstn.
Qed.

Lemma queryData_ok h mac o st res st' :
  queryData h mac o st = (Ok res, st') ->
  st' = st /\ isConnected st = true
  /\ accepts h (sanitizeMacForTableName mac) = true
  /\ exists t, tables st !! table_key (sanitizeMacForTableName mac) = Some t
               /\ res = sql_limit (default 100 (limit o)) (selected h o t).
Proof.
  intros H. unfold queryData in H.
  apply bind_inv_ok in H as ([] & st1 & H1 & H).
  rewrite require_connected_run in H1.
  destruct (isConnected st); [|discriminate]. injection H1 as <-.
  apply bind_inv_ok in H as (rs & st1 & H1 & H).
  injection H as <- <-.
  rewrite on_table_run in H1. destruct (accepts h _); [|discriminate].
  unfold select_from in H1.
  destruct (tables st !! _) as [t|] eqn:Ht; [|discriminate].
  injection H1 as <- <-. repeat split; auto. exists t. split; reflexivity.
Qed.

(** X3: what [queryData] returns for a hardware address comes from the
    table of the address and passes the filter, is ordered by the text
    of [timestamp], latest first, and is no longer than a limit that is
    not negative (100 when none is given); with a negative limit, or
    one the matching rows do not exceed, it is all the matching
    rows. *)
Theorem queryData_result h mac o st res st' :
  valid_key mac = true ->
  queryData h mac o st = (Ok res, st') ->
  exists t,
    tables st !! table_key (sanitizeMacForTableName mac) = Some t
    /\ (forall r, In r res -> In r (rows t) /\ matches h o r = true)
    /\ StronglySorted text_not_older res
    /\ (0 <= default 100 (limit o) ->
        Z.of_nat (List.length res) <= default 100 (limit o))
    /\ (default 100 (limit o) < 0
        \/ Z.of_nat (List.length (List.filter (matches h o) (rows t)))
           <= default 100 (limit o) ->
        Permutation res (List.filter (matches h o) (rows t))).
Proof.
  intros _ H. apply queryData_ok in H as (_ & _ & _ & t & Ht & ->).
  destruct (selected_sorted_permutation h o t) as [Hperm Hsorted].
  exists t. split; [exact Ht|].
  split.
  { intros r H. apply sql_limit_incl in H.
    apply (Permutation_in _ Hperm) in H. now apply filter_In in H. }
  split; [now apply sql_limit_sorted|].
  split; [apply sql_limit_length|].
  intros Hl. rewrite sql_limit_all; [exact Hperm|].
  now rewrite (Permutation_length Hperm).
Qed.

(** ** Writes, once more *)

Lemma kind_eqb_eq a b : kind_eqb a b = true <-> a = b.
Proof. destruct a, b; simpl; split; congruence. Qed.

Lemma kinds_with_In ms name k : In k (kinds_with ms name (Some k)).
Proof.
  unfold kinds_with. destruct (existsb _ _) eqn:E.
  - apply existsb_exists in E as (k' & Hin & Hk). apply kind_eqb_eq in Hk. now subst.
  - apply in_or_app. right. now left.
Qed.

Lemma refreshed_table_name name count types s m :
  table_name (refreshed name count types s m) = table_name m.
Proof. unfold refreshed. now destruct (named name m). Qed.

Lemma refreshed_mac_address name count types s m :
  m_mac_address (refreshed name count types s m) = m_mac_address m.
Proof. unfold refreshed. now destruct (named name m). Qed.

Lemma updateMetadata_ok h now name k st t :
  accepts h name = true -> tables st !! table_key name = Some t ->
  updateMetadata h now name k st
  = (Ok tt, set_metadata st (meta_last_id st)
              (map (refreshed name (Z.of_nat (List.length (rows t)))
                      (kinds_with (metadata st) name k) (now / 1000))
                 (metadata st))).
Proof.
  intros Ha Ht. rewrite updateMetadata_run, Ha, Ht. reflexivity.
Qed.


(** What a successful write has done to the store. *)
Lemma write_device_done h now mac k mk st st' :
  write_device h now mac k mk st = (Ok tt, st') ->
  let name := sanitizeMacForTableName mac in
  let t' := with_row (table_or_new st name) mk in
  isConnected st' = true
  /\ name ∈ createdTables st'
  /\ tables st' !! table_key name = Some t'
  /\ (forall κ, κ <> table_key name -> tables st' !! κ = tables st !! κ)
  /\ exists ms,
       (ms = metadata st
        \/ ms = (metadata st ++
                 [{| m_id := meta_last_id st + 1; table_name := name;
                     m_mac_address := mac; m_created_at := now / 1000;
                     last_updated := now / 1000; row_count := 0;
                     data_types := [] |}])%list
           /\ existsb (named name) (metadata st) = false)
       /\ metadata st'
          = map (refreshed name (Z.of_nat (List.length (rows t')))
                   (kinds_with ms name (Some k)) (now / 1000)) ms.
Proof.
  intros H name t'.
  pose proof (write_device_ok _ _ _ _ _ _ _ H) as (Hc & Ha & Hs & Ht & _).
  fold name in Ha, Hs, Ht. fold t' in Ht.
  unfold write_device in H.
  apply bind_inv_ok in H as ([] & st1 & H1 & H).
  rewrite require_connected_run, Hc in H1. injection H1 as <-.
  apply bind_inv_ok in H as (name' & st2 & H2 & H).
  apply bind_inv_ok in H as ([] & st3 & H3 & H4).
  rewrite createTableForMac_run in H2. fold name in H2.
  assert (Hname : name' = name).
  { destruct (decide (name ∈ createdTables st)); [congruence|].
    rewrite Ha in H2. congruence. }
  subst name'.
  rewrite on_table_run, Ha, insert_into_run in H3.
  destruct (tables st2 !! table_key name) as [t|] eqn:Ht2; [|discriminate].
  destruct (schema_eqb (columns t) DeviceSchema); [|discriminate].
  injection H3 as <-.
  rewrite (updateMetadata_ok h now name (Some k) _ (with_row t mk) Ha) in H4
    by (simpl; apply lookup_insert_eq).
  injection H4 as <-.
  assert (Htn : t = table_or_new st name).
  { destruct (decide (name ∈ createdTables st)).
    - injection H2 as <-. unfold table_or_new. now rewrite Ht2.
    - rewrite Ha in H2. injection H2 as <-. simpl in Ht2.
      pose proof (insert_or_ignore_metadata_frame name mac (now / 1000)
        (set_tables st (<[table_key name := table_or_new st name]> (tables st))))
        as (E1 & _). simpl in E1. rewrite E1, lookup_insert_eq in Ht2.
      now injection Ht2 as <-. }
  subst t. clear Ht. subst t'.
  destruct (decide (name ∈ createdTables st)) as [Hk|Hk].
  - injection H2 as <-. simpl.
    split; [exact Hc|]. split; [exact Hk|].
    split; [apply lookup_insert_eq|].
    split; [intros κ Hκ; apply lookup_insert_ne; congruence|].
    exists (metadata st). split; [now left | reflexivity].
  - rewrite Ha in H2. injection H2 as <-. simpl.
    pose proof (insert_or_ignore_metadata_frame name mac (now / 1000)
      (set_tables st (<[table_key name := table_or_new st name]> (tables st))))
      as (E1 & _ & E3 & _). simpl in E1, E3.
    split; [rewrite E3; exact Hc|].
    split; [apply elem_of_union_l, elem_of_singleton; reflexivity|].
    split; [apply lookup_insert_eq|].
    split.
    { intros κ Hκ. rewrite lookup_insert_ne by congruence.
      rewrite E1. apply lookup_insert_ne. congruence. }
    unfold insert_or_ignore_metadata. simpl.
    destruct (existsb (named name) (metadata st)) eqn:Hreg; simpl.
    + exists (metadata st). split; [now left | reflexivity].
    + eexists. split; [right; split; reflexivity | reflexivity].
Qed.


Lemma data_type_row_of h now w i : data_type (row_of h now w i) = write_kind w.
Proof. destruct w; reflexivity. Qed.

Lemma kind_name_not_all k : String.eqb (kind_name k) "all" = false.
Proof. destruct k; reflexivity. Qed.



Lemma unnamed_refreshed name c ty s l :
  List.filter (fun m => negb (named name m)) (map (refreshed name c ty s) l)
  = List.filter (fun m => negb (named name m)) l.
Proof.
  induction l as [|m l IH]; [reflexivity|]. cbn [map List.filter]. rewrite IH.
  unfold refreshed. destruct (named name m) eqn:E.
  - unfold named in *. simpl. now rewrite E.
  - now rewrite E.
Qed.

(** X5: after a write for a hardware address has succeeded, the
    metadata rows of its table say how many rows the table has, list
    the kind of the record among the kinds seen and carry the time of
    the write; the metadata rows of the other tables are those that
    were there, all of them and no other, and no other table has
    changed. *)
Theorem write_refreshes_metadata h now w st st' :
  valid_key (write_key w) = true ->
  store_write h now w st = (Ok tt, st') ->
  let name := sanitizeMacForTableName (write_key w) in
  exists t,
    tables st' !! table_key name = Some t
    /\ (forall m, In m (metadata st') -> table_name m = name ->
          row_count m = Z.of_nat (List.length (rows t))
          /\ In (write_kind w) (data_types m)
          /\ last_updated m = now / 1000)
    /\ List.filter (fun m => negb (named name m)) (metadata st')
       = List.filter (fun m => negb (named name m)) (metadata st)
    /\ (forall κ, κ <> table_key name -> tables st' !! κ = tables st !! κ).
Proof.
  intros _ H name. rewrite store_write_as_write_device in H.
  apply write_device_done in H as (_ & _ & Ht & Hframe & ms & Hms & Hmeta).
  fold name in Ht, Hframe, Hms, Hmeta.
  eexists. split; [exact Ht|]. split; [|split; [|exact Hframe]].
  - intros m Hm Hn. rewrite Hmeta in Hm. apply in_map_iff in Hm as (m0 & <- & _).
    rewrite refreshed_table_name in Hn.
    unfold refreshed. rewrite (named_refl name m0 Hn). simpl.
    split; [reflexivity|]. split; [apply kinds_with_In | reflexivity].
  - rewrite Hmeta, unnamed_refreshed.
    destruct Hms as [-> | [-> _]]; [reflexivity|].
    rewrite List.filter_app. simpl. unfold named at 2. simpl.
    rewrite String.eqb_refl. simpl. apply app_nil_r.
Qed.


(** ** Cleanup, once more *)

Lemma cleanup_table_run h now name iso st t :
  accepts h name = true -> tables st !! table_key name = Some t ->
  bind (on_table h name (delete_older name iso))
       (fun changes => bind (updateMetadata h now name None) (fun _ => ret changes)) st
  = (Ok (older_count iso t), cleaned st now name iso t).
Proof.
  intros Ha Ht.
  erewrite bind_run; cycle 1.
  { rewrite on_table_run, Ha. unfold delete_older. rewrite Ht. reflexivity. }
  erewrite bind_run; cycle 1.
  { apply (updateMetadata_ok h now name None _ (without_older iso t) Ha).
    simpl. apply lookup_insert_eq. }
  reflexivity.
Qed.

Lemma cleanupOldData_keyed_run h now c m days st t cutoff :
  let name := sanitizeMacForTableName (String c m) in
  isConnected st = true ->
  cutoffDate h now (days || field (config st) "retention_days")%js = Some cutoff ->
  accepts h name = true -> tables st !! table_key name = Some t ->
  cleanupOldData h now (Some (String c m)) days st
  = (Ok (older_count (Time.toISOString cutoff) t),
     cleaned st now name (Time.toISOString cutoff) t).
Proof.
  intros name Hc Hcut Ha Ht. unfold cleanupOldData. fold name.
  erewrite bind_run by (rewrite require_connected_run, Hc; reflexivity).
  unfold bind at 1. unfold get_state at 1. rewrite Hcut.
  erewrite bind_run by reflexivity.
  now apply cleanup_table_run.
Qed.

Lemma cleanupOldData_keyed_inv h now c m days st n st' :
  cleanupOldData h now (Some (String c m)) days st = (Ok n, st') ->
  let name := sanitizeMacForTableName (String c m) in
  exists t cutoff,
    isConnected st = true
    /\ cutoffDate h now (days || field (config st) "retention_days")%js = Some cutoff
    /\ accepts h name = true
    /\ tables st !! table_key name = Some t.
Proof.
  intros H name. unfold cleanupOldData in H. fold name in H.
  apply bind_inv_ok in H as ([] & st1 & H1 & H).
  rewrite require_connected_run in H1.
  destruct (isConnected st); [|discriminate]. injection H1 as <-.
  unfold bind at 1 in H. unfold get_state at 1 in H.
  apply bind_inv_ok in H as (iso & st1 & H1 & H).
  destruct (cutoffDate h now _) as [cutoff|] eqn:Hcut; [|discriminate].
  injection H1 as <- <-.
  apply bind_inv_ok in H as (changes & st2 & H2 & H).
  rewrite on_table_run in H2. destruct (accepts h name); [|discriminate].
  unfold delete_older in H2.
  destruct (tables st !! table_key name) as [t|] eqn:Ht; [|discriminate].
  exists t, cutoff. auto.
Qed.


Lemma filter_filter_same {A} (p : A -> bool) l :
  List.filter p (List.filter p l) = List.filter p l.
Proof.
  induction l as [|x l IH]; simpl; [reflexivity|].
  destruct (p x) eqn:E; simpl; [now rewrite E, IH | exact IH].
Qed.

Lemma filter_filter_none {A} (p : A -> bool) l :
  List.filter p (List.filter (fun x => negb (p x)) l) = [].
Proof.
  induction l as [|x l IH]; simpl; [reflexivity|].
  destruct (p x) eqn:E; simpl; [exact IH | now rewrite E].
Qed.


(** X8: a cleanup for one key, run again at the same reading of the
    clock and with the same number of days, finds nothing more to
    delete: it returns 0 and leaves every table as the first run left
    it. *)
Theorem keyed_cleanup_twice h now c m days st n st' :
  cleanupOldData h now (Some (String c m)) days st = (Ok n, st') ->
  exists st'',
    cleanupOldData h now (Some (String c m)) days st' = (Ok 0, st'')
    /\ tables st'' = tables st'.
Proof.
  intros H.
  destruct (cleanupOldData_keyed_inv _ _ _ _ _ _ _ _ H) as (t & cutoff & Hc & Hcut & Ha & Ht).
  rewrite (cleanupOldData_keyed_run h now c m days st t cutoff Hc Hcut Ha Ht) in H.
  injection H as _ <-.
  set (name := sanitizeMacForTableName (String c m)) in *.
  set (iso := Time.toISOString cutoff) in *.
  eexists. split.
  - rewrite (cleanupOldData_keyed_run h now c m days _ (without_older iso t) cutoff);
      [|exact Hc | exact Hcut | exact Ha | apply lookup_insert_eq].
    f_equal. unfold older_count, without_older. simpl.
    now rewrite filter_filter_none.
  - simpl. rewrite insert_insert_eq. f_equal.
    unfold without_older. simpl. now rewrite filter_filter_same.
Qed.

(** ** The cutoff is a day *)

Lemma ascii_compare_refl a : Ascii.compare a a = Eq.
Proof. unfold Ascii.compare. apply N.compare_refl. Qed.

Lemma compare_common_prefix p a b :
  String.compare (p ++ a) (p ++ b) = String.compare a b.
Proof.
  induction p as [|c p IH]; [reflexivity|].
  change (String.compare (String c (p ++ a)) (String c (p ++ b)) = String.compare a b).
  simpl. now rewrite ascii_compare_refl.
Qed.

Lemma string_app_assoc (a b c : string) : ((a ++ b) ++ c = a ++ (b ++ c))%string.
Proof.
  induction a as [|x a IH]; [reflexivity|].
  change (String x ((a ++ b) ++ c) = String x (a ++ (b ++ c)))%string.
  now rewrite IH.
Qed.

(** A row written on the UTC day of the cutoff sorts before the cutoff,
    whatever the hour of either. *)
Lemma same_day_created_before ms r :
  0 <= utc_year ms <= 9999 ->
  created_at r / 86400 = ms / Time.msPerDay ->
  created_before (Time.toISOString ms) r = true.
Proof.
  unfold utc_year, created_before, Time.toISOString, Time.sqlite_datetime, Time.date_text.
  intros Hy ->.
  destruct (Time.civil_from_days (ms / Time.msPerDay)) as [[y mo] d].
  cbv beta iota zeta in *.
  replace ((0 <=? y) && (y <=? 9999)) with true
    by (symmetry; apply andb_true_iff; split; apply Z.leb_le; lia).
  unfold String.ltb.
  rewrite !string_app_assoc, !compare_common_prefix. reflexivity.
Qed.

(** X9: the cutoff of a cleanup works by the day.  When a cleanup for
    one hardware address returns, no row is left in the table that was
    written on the UTC day of the cutoff, be it hours after the cutoff
    itself (the year of the cutoff being one of 0 to 9999). *)
Theorem cleanup_takes_the_cutoff_day h now c m days st n st' :
  valid_key (String c m) = true ->
  cleanupOldData h now (Some (String c m)) days st = (Ok n, st') ->
  exists cutoff t',
    cutoffDate h now (days || field (config st) "retention_days")%js = Some cutoff
    /\ tables st' !! table_key (sanitizeMacForTableName (String c m)) = Some t'
    /\ (0 <= utc_year cutoff <= 9999 ->
        forall r, In r (rows t') -> created_at r / 86400 <> cutoff / Time.msPerDay).
Proof.
  intros _ H.
  destruct (cleanupOldData_keyed_inv _ _ _ _ _ _ _ _ H) as (t & cutoff & Hc & Hcut & Ha & Ht).
  rewrite (cleanupOldData_keyed_run h now c m days st t cutoff Hc Hcut Ha Ht) in H.
  injection H as _ <-.
  exists cutoff, (without_older (Time.toISOString cutoff) t).
  split; [exact Hcut|]. split; [simpl; apply lookup_insert_eq|].
  intros Hy r Hr Hday. simpl in Hr. apply filter_In in Hr as [_ Hr].
  now rewrite (same_day_created_before cutoff r Hy Hday) in Hr.
Qed.

(** ** Cleanup of all tables *)





(** ** Dropping a table *)

Lemma filter_all_true {A} (p : A -> bool) l :
  existsb (fun x => negb (p x)) l = false -> List.filter p l = l.
Proof.
  induction l as [|x l IH]; simpl; [reflexivity|].
  destruct (p x); simpl; [intros H; now rewrite IH | discriminate].
Qed.

(** X11: [dropTable] for a hardware address changes the table, the
    metadata rows and the known-set entry of that address's table name
    and nothing else; for an address that was never written it succeeds
    and leaves the store as it was. *)
Theorem dropTable_frame h k st :
  valid_key k = true ->
  isConnected st = true ->
  accepts h (sanitizeMacForTableName k) = true ->
  let name := sanitizeMacForTableName k in
  exists st',
    dropTable h k st = (Ok tt, st')
    /\ (forall κ, κ <> table_key name -> tables st' !! κ = tables st !! κ)
    /\ (forall m, In m (metadata st') <-> In m (metadata st) /\ table_name m <> name)
    /\ (forall n, n <> name -> (n ∈ createdTables st' <-> n ∈ createdTables st))
    /\ config st' = config st
    /\ (tables st !! table_key name = None -> ~ registered st name -> ~ known st name ->
        st' = st).
Proof.
  intros _ Hc Ha name. exists (dropped st name).
  split; [rewrite dropTable_run, Hc, Ha; reflexivity|]. simpl.
  split; [intros κ Hκ; apply lookup_delete_ne; congruence|].
  split.
  { intros m. rewrite filter_In, negb_true_iff. unfold named.
    rewrite String.eqb_neq. reflexivity. }
  split.
  { intros n Hn. rewrite elem_of_difference, elem_of_singleton. tauto. }
  split; [reflexivity|].
  intros Ht Hr Hk. unfold dropped. destruct st as [cfg conn created tbls lastid meta].
  simpl in *. f_equal.
  - apply difference_disjoint_L. apply disjoint_singleton_r. exact Hk.
  - now apply delete_id.
  - apply filter_all_true. unfold registered in Hr. simpl in Hr.
    destruct (existsb (named name) meta) eqn:E; [contradiction|].
    rewrite <- E. clear. induction meta as [|m meta IH]; simpl; [reflexivity|].
    now rewrite negb_involutive, IH.
Qed.

(** ** The configuration *)

(** X12: the configuration of a new store is the object it was given,
    completed by the defaults.  A field the object has is kept as it is,
    be it 0, the empty string or [undefined]; a default is used only
    for a field the object does not have. *)
Theorem constructor_config c :
  config (constructor c) = c ∪ default_config
  /\ (forall f v, c !! f = Some v -> field (config (constructor c)) f = v)
  /\ (forall f, c !! f = None ->
        field (config (constructor c)) f = field default_config f).
Proof.
  assert (E : config (constructor c) = c ∪ default_config).
  { simpl. apply map_eq. intros f. rewrite !lookup_union.
    destruct (c !! f) as [v|] eqn:Hf; simpl.
    - now destruct (defaults c !! f), (default_config !! f).
    - unfold default_config, defaults.
      assert (Hfield : field c f = JUndefined) by (unfold field; now rewrite Hf).
      destruct (decide (f = "database_path")) as [->|N1];
        [rewrite !lookup_insert_eq, Hfield; reflexivity | rewrite !(lookup_insert_ne _ _ f) by congruence].
      destruct (decide (f = "max_table_size")) as [->|N2];
        [rewrite !lookup_insert_eq, Hfield; reflexivity | rewrite !(lookup_insert_ne _ _ f) by congruence].
      destruct (decide (f = "retention_days")) as [->|N3];
        [rewrite !lookup_insert_eq, Hfield; reflexivity | rewrite !(lookup_insert_ne _ _ f) by congruence].
      destruct (decide (f = "auto_create_tables")) as [->|N4];
        [rewrite !lookup_insert_eq, Hfield; reflexivity | rewrite !(lookup_insert_ne _ _ f) by congruence].
      destruct (decide (f = "enable_logging")) as [->|N5];
        [rewrite !lookup_singleton_eq, Hfield; reflexivity|].
      rewrite !lookup_singleton_ne by congruence. reflexivity. }
  split; [exact E|]. split.
  - intros f v Hf. rewrite E. unfold field. now rewrite lookup_union, Hf; destruct (default_config !! f).
  - intros f Hf. rewrite E. unfold field. rewrite lookup_union, Hf.
    now destruct (default_config !! f).
Qed.

(** ** The metadata and the tables agree on every store a program reaches *)

Lemma map_refreshed_names name count types s ms :
  map table_name (map (refreshed name count types s) ms) = map table_name ms.
Proof. rewrite map_map. apply map_ext. intros m. apply refreshed_table_name. Qed.

Lemma existsb_named_refreshed n name count types s ms :
  existsb (named n) (map (refreshed name count types s) ms) = existsb (named n) ms.
Proof.
  induction ms as [|m ms IH]; simpl; [reflexivity|]. rewrite IH.
  unfold named at 1. rewrite refreshed_table_name. reflexivity.
Qed.

Lemma named_eq name m : named name m = true <-> table_name m = name.
Proof. unfold named. apply String.eqb_eq. Qed.

Lemma existsb_named_In name ms :
  existsb (named name) ms = true <-> In name (map table_name ms).
Proof.
  rewrite existsb_exists, in_map_iff. split.
  - intros (m & Hin & Hn). apply named_eq in Hn. eauto.
  - intros (m & Hn & Hin). apply named_eq in Hn. eauto.
Qed.

Lemma NoDup_snoc {A} (l : list A) x : NoDup l -> ~ In x l -> NoDup (l ++ [x]).
Proof.
  intros Hl Hx. apply NoDup_app. split; [exact Hl|]. split; [|apply NoDup_singleton].
  intros y Hy Hk. apply list_elem_of_singleton in Hk. subst y.
  apply Hx. now apply list_elem_of_In.
Qed.

Lemma NoDup_map_filter {A B} (f : A -> B) p (l : list A) :
  NoDup (map f l) -> NoDup (map f (List.filter p l)).
Proof.
  induction l as [|x l IH]; simpl; intros H; [constructor|].
  apply NoDup_cons in H as [Hx Hl].
  destruct (p x); simpl; [|auto].
  apply NoDup_cons. split; [|auto].
  intros Hin. apply Hx. apply list_elem_of_In. apply list_elem_of_In in Hin.
  apply in_map_iff in Hin as (y & E & Hy).
  apply filter_In in Hy as [Hy _]. apply in_map_iff. eauto.
Qed.

Lemma find_named_Some name ms :
  existsb (named name) ms = true ->
  exists m, List.find (named name) ms = Some m /\ In m ms /\ table_name m = name.
Proof.
  intros H. destruct (List.find (named name) ms) as [m|] eqn:E.
  - apply find_some in E as [Hin Hn]. apply named_eq in Hn. eauto.
  - apply existsb_exists in H as (m & Hin & Hn).
    now rewrite (find_none _ _ E m Hin) in Hn.
Qed.

Lemma find_app_first {A} (p : A -> bool) l k x :
  List.find p l = Some x -> List.find p (l ++ k) = Some x.
Proof.
  induction l as [|y l IH]; simpl; [discriminate|].
  destruct (p y); [auto | exact IH].
Qed.

(** A state that differs from a consistent one in the table under
    [name], in the metadata rows of that name and at most by a new row
    of that name is consistent, when those rows count the table. *)
Lemma consistent_refresh h st st' name t' m0 ms count types s :
  consistent h st ->
  table_key name = name -> accepts h name = true ->
  tables st' = <[name := t']> (tables st) ->
  metadata st' = map (refreshed name count types s) ms ->
  (ms = metadata st
   \/ (ms = (metadata st ++ [m0])%list /\ table_name m0 = name
       /\ sanitizeMacForTableName (m_mac_address m0) = name
       /\ name <> ENVIRONMENT_DATA /\ existsb (named name) (metadata st) = false)) ->
  (name <> ENVIRONMENT_DATA ->
     columns t' = DeviceSchema /\ existsb (named name) ms = true) ->
  (existsb (named name) ms = true ->
     count = Z.of_nat (List.length (rows t'))
     /\ forall r, In r (rows t') -> In (data_type r) types) ->
  consistent h st'.
Proof.
  intros (Htbm & Henv & Hcol & Hreg & Hacc & Hnd & Hadr) Hkey Ha Ht Hm Hms Hdev Hcnt.
  unfold tables_behind_metadata, registered_names, accounted, addressed
    in Htbm, Henv, Hacc, Hadr.
  rewrite List.Forall_forall in Htbm, Henv, Hacc, Hadr.
  assert (Hin_ms : forall m, In m ms ->
            In m (metadata st) \/ (table_name m = name /\ name <> ENVIRONMENT_DATA)).
  { intros m Hin. destruct Hms as [-> | (-> & Hn & _ & Hne & _)]; [now left|].
    apply in_app_iff in Hin as [Hin | [<- | []]]; auto. }
  assert (Hsub : forall m, In m (metadata st) -> In m ms).
  { intros m Hin. destruct Hms as [-> | (-> & _)]; [exact Hin|].
    apply in_app_iff. now left. }
  unfold consistent, tables_behind_metadata, registered_names, accounted, addressed.
  rewrite Hm. rewrite !List.Forall_forall.
  split; [|split; [|split; [|split; [|split; [|split]]]]].
  - intros m' Hin. apply in_map_iff in Hin as (m & <- & Hin).
    rewrite refreshed_table_name, Ht.
    destruct (Hin_ms m Hin) as [Hold | [-> _]].
    + destruct (Htbm m Hold) as (H1 & H2 & H3).
      split; [exact H1|]. split; [exact H2|]. now apply is_Some_insert.
    + split; [exact Ha|]. split; [exact Hkey|].
      rewrite Hkey, lookup_insert_eq. eauto.
  - intros m' Hin. apply in_map_iff in Hin as (m & <- & Hin).
    rewrite refreshed_table_name.
    destruct (Hin_ms m Hin) as [Hold | [-> Hne]]; [apply (Henv m Hold) | now rewrite Hkey].
  - intros κ t Hκ Hne. rewrite Ht in Hκ.
    destruct (decide (κ = name)) as [->|Hκn].
    + rewrite lookup_insert_eq in Hκ. injection Hκ as <-. now apply Hdev.
    + rewrite lookup_insert_ne in Hκ by congruence. eauto.
  - intros κ Hκ Hne. unfold registered. rewrite Hm, existsb_named_refreshed.
    rewrite Ht in Hκ. destruct (decide (κ = name)) as [->|Hκn].
    + now apply Hdev.
    + rewrite lookup_insert_ne in Hκ by congruence.
      pose proof (Hreg κ Hκ Hne) as Hr. unfold registered in Hr.
      apply existsb_exists in Hr as (m & Hin & Hn).
      apply existsb_exists. eauto.
  - intros m' Hin. apply in_map_iff in Hin as (m & <- & Hin).
    unfold accounted_row, refreshed. destruct (named name m) eqn:Hn.
    + apply named_eq in Hn. simpl. rewrite Hn, Hkey, Ht, lookup_insert_eq.
      exists t'. split; [reflexivity|]. apply Hcnt.
      apply existsb_exists. exists m. split; [exact Hin | now apply named_eq].
    + destruct (Hin_ms m Hin) as [Hold | [E _]];
        [|apply named_eq in E; congruence].
      destruct (Hacc m Hold) as (t & Hl & Hc & Hk).
      exists t. split; [|auto]. rewrite Ht.
      destruct (Htbm m Hold) as (_ & Hkm & _).
      rewrite lookup_insert_ne; [exact Hl|].
      rewrite Hkm. intros E. symmetry in E. apply named_eq in E. congruence.
  - rewrite map_refreshed_names.
    destruct Hms as [-> | (-> & Hn & _ & _ & Hex)]; [exact Hnd|].
    rewrite map_app. simpl. apply NoDup_snoc; [exact Hnd|].
    rewrite Hn, <- existsb_named_In, Hex. discriminate.
  - intros m' Hin. apply in_map_iff in Hin as (m & <- & Hin).
    rewrite refreshed_table_name, refreshed_mac_address.
    destruct Hms as [-> | (-> & Hn & Hadr0 & _)]; [now apply Hadr|].
    apply in_app_iff in Hin as [Hin | [<- | []]]; [now apply Hadr | congruence].
Qed.

Lemma consistent_ext h st st' :
  tables st' = tables st -> metadata st' = metadata st ->
  consistent h st -> consistent h st'.
Proof.
  intros Et Em.
  unfold consistent, tables_behind_metadata, registered_names, device_columns,
    tables_registered, registered, accounted, accounted_row, addressed.
  rewrite Et, Em. intros H. exact H.
Qed.

Lemma consistent_new h c : consistent h (constructor c).
Proof.
  unfold consistent, tables_behind_metadata, registered_names, device_columns,
    tables_registered, accounted, addressed. simpl.
  split; [constructor|]. split; [constructor|].
  split; [intros κ t H; now rewrite lookup_empty in H|].
  split; [intros κ [t H]; now rewrite lookup_empty in H|].
  split; [constructor|]. split; constructor.
Qed.

(** A change of the environment table alone. *)
Lemma consistent_environment h st st' :
  consistent h st -> metadata st' = metadata st ->
  (forall κ, κ <> ENVIRONMENT_DATA -> tables st' !! κ = tables st !! κ) ->
  consistent h st'.
Proof.
  intros (Htbm & Henv & Hcol & Hreg & Hacc & Hnd & Hadr) Hm Ht.
  unfold tables_behind_metadata, registered_names, accounted in Htbm, Henv, Hacc.
  rewrite List.Forall_forall in Htbm, Henv, Hacc.
  unfold consistent, tables_behind_metadata, registered_names, accounted, addressed.
  unfold addressed in Hadr.
  rewrite Hm, !List.Forall_forall. rewrite List.Forall_forall in Hadr.
  split; [|split; [|split; [|split; [|split; [|split]]]]]; [| | | | | |exact Hadr].
  - intros m Hin. destruct (Htbm m Hin) as (H1 & H2 & H3).
    rewrite Ht by apply (Henv m Hin). auto.
  - exact Henv.
  - intros κ t Hκ Hne. rewrite Ht in Hκ by exact Hne. eauto.
  - intros κ Hκ Hne. unfold registered. rewrite Hm.
    rewrite Ht in Hκ by exact Hne. now apply Hreg.
  - intros m Hin. destruct (Hacc m Hin) as (t & Hl & Hc).
    exists t. rewrite Ht by apply (Henv m Hin). auto.
  - exact Hnd.
Qed.

Lemma storeEnvironmentData_tables now data st κ :
  κ <> ENVIRONMENT_DATA ->
  tables (state_after (storeEnvironmentData now data) st) !! κ = tables st !! κ.
Proof.
  intros Hκ. unfold state_after, storeEnvironmentData.
  unfold bind at 1. rewrite require_connected_run.
  destruct (isConnected st); [|reflexivity].
  unfold bind at 1. unfold get_state at 1.
  unfold bind at 1.
  destruct (decide (ENVIRONMENT_DATA ∈ createdTables st)).
  - unfold ret at 1. unfold insert_into.
    destruct (tables st !! _) as [t|]; [|reflexivity].
    destruct (schema_eqb _ _); [|reflexivity].
    simpl. apply lookup_insert_ne. exact (not_eq_sym Hκ).
  - unfold bind, create_table_if_not_exists, get_state, put_state, insert_into.
    destruct (tables st !! table_key ENVIRONMENT_DATA) as [t|] eqn:Ht; simpl.
    + rewrite Ht. destruct (schema_eqb _ _); [|reflexivity].
      simpl. apply lookup_insert_ne. exact (not_eq_sym Hκ).
    + rewrite lookup_insert_eq. simpl.
      rewrite !lookup_insert_ne by exact (not_eq_sym Hκ). reflexivity.
Qed.

Lemma consistent_dropped h st name :
  consistent h st -> table_key name = name -> consistent h (dropped st name).
Proof.
  intros (Htbm & Henv & Hcol & Hreg & Hacc & Hnd & Hadr) Hkey.
  unfold tables_behind_metadata, registered_names, accounted, addressed
    in Htbm, Henv, Hacc, Hadr.
  rewrite List.Forall_forall in Htbm, Henv, Hacc, Hadr.
  assert (Hother : forall m, In m (metadata st) -> named name m = false ->
            table_key (table_name m) <> table_key name).
  { intros m Hin Hn. destruct (Htbm m Hin) as (_ & Hkm & _).
    rewrite Hkm, Hkey. intros E. apply named_eq in E. congruence. }
  unfold consistent, tables_behind_metadata, registered_names, accounted, addressed.
  simpl. rewrite !List.Forall_forall.
  split; [|split; [|split; [|split; [|split; [|split]]]]].
  - intros m Hin. apply filter_In in Hin as [Hin Hn]. apply negb_true_iff in Hn.
    destruct (Htbm m Hin) as (H1 & H2 & H3).
    rewrite lookup_delete_ne by (apply not_eq_sym; auto). auto.
  - intros m Hin. apply filter_In in Hin as [Hin _]. auto.
  - intros κ t Hκ Hne. simpl in Hκ. apply lookup_delete_Some in Hκ as [_ Hκ]. eauto.
  - intros κ [t Hκ] Hne. simpl in Hκ. apply lookup_delete_Some in Hκ as [Hκn Hκ].
    pose proof (Hreg κ (ex_intro _ t Hκ) Hne) as Hr. unfold registered in *. simpl.
    apply existsb_exists in Hr as (m & Hin & Hn).
    apply existsb_exists. exists m. split; [|exact Hn].
    apply filter_In. split; [exact Hin|]. apply negb_true_iff.
    apply named_eq in Hn. destruct (named name m) eqn:E; [|reflexivity].
    apply named_eq in E. congruence.
  - intros m Hin. apply filter_In in Hin as [Hin Hn]. apply negb_true_iff in Hn.
    destruct (Hacc m Hin) as (t & Hl & Hc). exists t. simpl.
    rewrite lookup_delete_ne by (apply not_eq_sym; auto). auto.
  - now apply NoDup_map_filter.
  - intros m Hin. apply filter_In in Hin as [Hin _]. auto.
Qed.

Lemma kinds_of_first_row h st name t m :
  consistent h st -> table_key name = name ->
  tables st !! name = Some t ->
  List.find (named name) (metadata st) = Some m ->
  forall r, In r (rows t) -> In (data_type r) (data_types m).
Proof.
  intros (_ & _ & _ & _ & Hacc & _) Hkey Ht Hf r Hr.
  apply find_some in Hf as [Hin Hn]. apply named_eq in Hn.
  unfold accounted in Hacc. rewrite List.Forall_forall in Hacc.
  destruct (Hacc m Hin) as (t1 & Hl & _ & Hk).
  rewrite Hn, Hkey, Ht in Hl. injection Hl as <-. auto.
Qed.

Lemma consistent_cleaned h st now name iso t :
  consistent h st -> table_key name = name -> accepts h name = true ->
  tables st !! name = Some t ->
  consistent h (cleaned st now name iso t).
Proof.
  intros HJ Hkey Ha Ht.
  pose proof HJ as (_ & _ & Hcol & Hreg & _).
  eapply consistent_refresh with (name := name) (t' := without_older iso t)
    (ms := metadata st)
    (m0 := {| m_id := 0; table_name := name; m_mac_address := name;
              m_created_at := 0; last_updated := 0; row_count := 0;
              data_types := [] |});
    [exact HJ | exact Hkey | exact Ha | | | | |].
  - simpl. now rewrite Hkey.
  - reflexivity.
  - now left.
  - intros Hne. split; [simpl; eauto|]. apply Hreg; eauto.
  - intros Hex. split; [reflexivity|].
    intros r Hr. simpl in Hr. apply filter_In in Hr as [Hr _].
    destruct (find_named_Some _ _ Hex) as (m & Hf & _).
    unfold kinds_with. rewrite Hf.
    now apply (kinds_of_first_row h st name t m).
Qed.

(** The two statements a cleanup runs for a table, and what follows. *)
Lemma consistent_cleanup_table {B} h now name iso (k : Z -> M B) :
  table_key name = name ->
  (forall n, keeps (consistent h) (k n)) ->
  keeps (consistent h)
    (bind (on_table h name (delete_older name iso))
       (fun n => bind (updateMetadata h now name None) (fun _ => k n))).
Proof.
  intros Hkey Hk st HJ.
  unfold bind at 1. rewrite on_table_run.
  destruct (accepts h name) eqn:Ha; [|exact HJ].
  unfold delete_older.
  destruct (tables st !! table_key name) as [t|] eqn:Ht; [|exact HJ].
  erewrite bind_run; cycle 1.
  { apply (updateMetadata_ok h now name None _ (without_older iso t) Ha).
    simpl. apply lookup_insert_eq. }
  apply Hk. rewrite Hkey in Ht. now apply (consistent_cleaned h st now name iso t).
Qed.

Lemma consistent_cleanup_each h now cutoff names : forall total,
  Forall (fun name => table_key name = name) names ->
  keeps (consistent h) (cleanup_each h now cutoff names total).
Proof.
  induction names as [|name names IH]; intros total H; simpl.
  - apply keeps_ret.
  - apply Forall_cons in H as [Hkey Hrest].
    apply keeps_bind; [apply keeps_cutoff_text | intros iso].
    apply consistent_cleanup_table; [exact Hkey|]. intros n. now apply IH.
Qed.

Lemma consistent_cleanupOldData h now mac days :
  keeps (consistent h) (cleanupOldData h now mac days).
Proof.
  intros st HJ. unfold cleanupOldData.
  unfold bind at 1. rewrite require_connected_run.
  destruct (isConnected st); [|exact HJ].
  unfold bind at 1. unfold get_state at 1.
  assert (Hnames : Forall (fun name => table_key name = name)
                     (map table_name (metadata st))).
  { destruct HJ as (Htbm & _). apply Forall_map.
    eapply Forall_impl; [exact Htbm|]. now intros m (_ & Hk & _). }
  destruct mac as [[|c m]|]; try (now apply consistent_cleanup_each).
  unfold bind at 1.
  destruct (cutoffDate h now _) as [cutoff|]; [|exact HJ].
  unfold cutoff_text, ret at 1.
  apply (consistent_cleanup_table h now _ _ (fun n => ret n));
    [apply table_key_sanitize | intros n; apply keeps_ret | exact HJ].
Qed.

Lemma consistent_dropTable h mac : keeps (consistent h) (dropTable h mac).
Proof.
  intros st HJ. rewrite dropTable_run.
  destruct (isConnected st); [|exact HJ].
  destruct (accepts h _); [|exact HJ].
  apply consistent_dropped; [exact HJ | apply table_key_sanitize].
Qed.

Lemma kinds_with_seen ms name k m :
  List.find (named name) ms = Some m ->
  incl (data_types m) (kinds_with ms name (Some k)).
Proof.
  intros Hf x Hx. unfold kinds_with. rewrite Hf.
  destruct (existsb _ _); [exact Hx | apply in_or_app; now left].
Qed.

Lemma table_or_new_rows st name r :
  In r (rows (table_or_new st name)) ->
  tables st !! table_key name = Some (table_or_new st name).
Proof.
  unfold table_or_new.
  destruct (tables st !! table_key name) as [t|]; simpl; [reflexivity | intros []].
Qed.

Lemma write_kinds h st name k mk ms :
  consistent h st -> table_key name = name -> name <> ENVIRONMENT_DATA ->
  (forall i, data_type (mk i) = k) ->
  (forall m, List.find (named name) (metadata st) = Some m ->
             List.find (named name) ms = Some m) ->
  forall r, In r (rows (with_row (table_or_new st name) mk)) ->
    In (data_type r) (kinds_with ms name (Some k)).
Proof.
  intros HJ Hkey Hne Hmk Hfind r Hr. simpl in Hr.
  apply in_app_iff in Hr as [Hr | [<- | []]].
  - pose proof (table_or_new_rows _ _ _ Hr) as Ht. rewrite Hkey in Ht.
    pose proof HJ as (_ & _ & _ & Hreg & _).
    destruct (find_named_Some name (metadata st)) as (m & Hf & _);
      [apply Hreg; eauto|].
    apply (kinds_with_seen ms name k m (Hfind m Hf)).
    now apply (kinds_of_first_row h st name _ m HJ Hkey Ht).
  - rewrite Hmk. apply kinds_with_In.
Qed.

Lemma consistent_write_device h now mac k mk :
  valid_key mac = true -> (forall i, data_type (mk i) = k) ->
  keeps (consistent h) (write_device h now mac k mk).
Proof.
  intros Hvalid Hmk st HJ.
  pose proof (valid_key_not_environment mac Hvalid) as Hne.
  rewrite table_key_sanitize in Hne.
  pose proof (table_key_sanitize mac) as Hkey.
  pose proof HJ as (_ & _ & Hcol & Hreg & _).
  unfold write_device.
  unfold bind at 1. rewrite require_connected_run.
  destruct (isConnected st); [|exact HJ].
  unfold bind at 1. rewrite createTableForMac_run.
  set (name := sanitizeMacForTableName mac) in *.
  set (m0 := {| m_id := meta_last_id st + 1; table_name := name;
                m_mac_address := mac; m_created_at := now / 1000;
                last_updated := now / 1000; row_count := 0;
                data_types := [] |}).
  assert (Hcolumns : columns (table_or_new st name) = DeviceSchema).
  { unfold table_or_new.
    destruct (tables st !! table_key name) as [t|] eqn:Ht; simpl; [|reflexivity].
    apply (Hcol (table_key name) t Ht). now rewrite Hkey. }
  destruct (decide (name ∈ createdTables st)) as [Hk|Hk].
  - unfold bind at 1. rewrite on_table_run.
    destruct (accepts h name) eqn:Ha; [|exact HJ].
    rewrite insert_into_run.
    destruct (tables st !! table_key name) as [t|] eqn:Ht; [|exact HJ].
    assert (Et : table_or_new st name = t) by (unfold table_or_new; now rewrite Ht).
    rewrite <- Et, Hcolumns. simpl schema_eqb. cbv iota.
    rewrite (updateMetadata_ok h now name (Some k) _
               (with_row (table_or_new st name) mk) Ha)
      by (simpl; apply lookup_insert_eq).
    rewrite Hkey in Ht.
    eapply consistent_refresh with (name := name)
      (t' := with_row (table_or_new st name) mk) (ms := metadata st) (m0 := m0);
      [exact HJ | exact Hkey | exact Ha | | | | |].
    + simpl. now rewrite Hkey.
    + reflexivity.
    + now left.
    + intros _. split; [exact Hcolumns | apply Hreg; eauto].
    + intros _. split; [reflexivity|].
      now apply (write_kinds h st name k mk (metadata st) HJ Hkey Hne Hmk).
  - destruct (accepts h name) eqn:Ha; [|exact HJ].
    cbv beta iota.
    set (st1 := set_tables st (<[table_key name := table_or_new st name]> (tables st))).
    set (st2 := set_createdTables _ _).
    assert (Ht2 : tables st2 = <[name := table_or_new st name]> (tables st)).
    { subst st2 st1. unfold insert_or_ignore_metadata. simpl.
      rewrite Hkey. now destruct (existsb (named name) (metadata st)). }
    assert (Hm2 : metadata st2
                  = if existsb (named name) (metadata st) then metadata st
                    else (metadata st ++ [m0])%list).
    { subst st2 st1. unfold insert_or_ignore_metadata. simpl.
      now destruct (existsb (named name) (metadata st)). }
    clearbody st2.
    unfold bind at 1. rewrite on_table_run, Ha, insert_into_run.
    rewrite Ht2, Hkey, lookup_insert_eq, Hcolumns. simpl schema_eqb. cbv iota.
    rewrite (updateMetadata_ok h now name (Some k) _
               (with_row (table_or_new st name) mk) Ha)
      by (simpl; rewrite Hkey; apply lookup_insert_eq).
    eapply consistent_refresh with (name := name)
      (t' := with_row (table_or_new st name) mk) (ms := metadata st2) (m0 := m0);
      [exact HJ | exact Hkey | exact Ha | | | | |].
    + simpl. rewrite ?Hkey. apply insert_insert_eq.
    + reflexivity.
    + rewrite Hm2. destruct (existsb (named name) (metadata st)) eqn:Hex;
        [now left | right; repeat split; auto].
    + intros _. split; [exact Hcolumns|]. rewrite Hm2.
      destruct (existsb (named name) (metadata st)) eqn:Hex; [exact Hex|].
      rewrite existsb_app. simpl. unfold named at 2. simpl.
      rewrite String.eqb_refl. now rewrite orb_true_r.
    + intros _. split; [reflexivity|].
      apply (write_kinds h st name k mk (metadata st2) HJ Hkey Hne Hmk).
      intros m Hf. rewrite Hm2.
      destruct (existsb (named name) (metadata st)); [exact Hf|].
      now apply find_app_first.
Qed.

Lemma consistent_after h c st :
  consistent h st -> for_device c -> consistent h (after h c st).
Proof.
  intros HJ Hc. destruct c; simpl.
  - unfold state_after, initialize.
    destruct (isConnected st); [exact HJ|]. now apply (consistent_ext h st).
  - now apply (consistent_ext h st).
  - unfold state_after. rewrite store_write_as_write_device.
    apply consistent_write_device; [exact Hc | | exact HJ].
    intros i. apply data_type_row_of.
  - apply (consistent_environment h st); [exact HJ | |].
    + apply storeEnvironmentData_metadata.
    + intros κ Hκ. now apply storeEnvironmentData_tables.
  - unfold state_after. now rewrite queryData_state.
  - unfold state_after. now rewrite queryAllData_state.
  - now apply consistent_cleanupOldData.
  - now apply consistent_dropTable.
Qed.

Lemma reachable_consistent h st : reachable h st -> consistent h st.
Proof.
  induction 1 as [c | c st Hr IH Hc].
  - apply consistent_new.
  - now apply consistent_after.
Qed.

Lemma valid_key_length k :
  valid_key k = true -> String.length (sanitizeMacForTableName k) = 17%nat.
Proof.
  intros H. rewrite sanitize_as_map, map_chars_length.
  apply (hex_groups_length 6 k H).
Qed.

Lemma reachable_names_length h st :
  reachable h st -> registered_names (fun n => String.length n = 17%nat) st.
Proof.
  induction 1 as [c | c st Hr IH Hc].
  - constructor.
  - destruct c; simpl.
    + unfold state_after, initialize. now destruct (isConnected st).
    + exact IH.
    + apply keeps_store_write; [now apply valid_key_length | exact IH].
    + now apply keeps_storeEnvironmentData.
    + now apply keeps_queryData.
    + now apply keeps_queryAllData.
    + now apply keeps_cleanupOldData.
    + now apply keeps_dropTable.
Qed.

(** X13: on every store a program reaches from a new one, whose
    database is a file, by calls whose keys are hardware addresses, the
    metadata rows and the tables of the devices correspond one to
    one: every row names a table that exists,
    under an address that leads to that table, every table but
    [ENVIRONMENT_DATA] has a row, and no two rows name the same
    table. *)
Theorem reachable_metadata_and_tables h st :
  reachable h st ->
  (forall m, In m (metadata st) ->
     table_name m <> ENVIRONMENT_DATA
     /\ is_Some (tables st !! table_name m)
     /\ sanitizeMacForTableName (m_mac_address m) = table_name m)
  /\ (forall κ, is_Some (tables st !! κ) -> κ <> ENVIRONMENT_DATA ->
        exists m, In m (metadata st) /\ table_name m = κ)
  /\ NoDup (map table_name (metadata st)).
Proof.
  intros Hr.
  destruct (reachable_consistent h st Hr) as (Htbm & Henv & _ & Hreg & _ & Hnd & Hadr).
  unfold tables_behind_metadata, registered_names, addressed in Htbm, Henv, Hadr.
  rewrite List.Forall_forall in Htbm, Henv, Hadr.
  split; [|split; [|exact Hnd]].
  - intros m Hin. destruct (Htbm m Hin) as (_ & Hk & Hs).
    pose proof (Henv m Hin) as Hne. rewrite Hk in Hs, Hne. auto.
  - intros κ Hκ Hne. pose proof (Hreg κ Hκ Hne) as H. unfold registered in H.
    apply existsb_exists in H as (m & Hin & Hn). apply named_eq in Hn. eauto.
Qed.

Lemma count_distinct_kinds_le l ks :
  (forall r, In r l -> In (data_type r) ks) ->
  count_distinct_kinds l <= Z.of_nat (List.length ks).
Proof.
  intros H. unfold count_distinct_kinds. apply Nat2Z.inj_le.
  apply List.NoDup_incl_length.
  - apply List.NoDup_filter.
    repeat constructor; simpl; intuition discriminate.
  - intros k Hk. apply filter_In in Hk as [_ Hk].
    apply existsb_exists in Hk as (r & Hr & E). apply kind_eqb_eq in E. subst k. auto.
Qed.

Lemma getStorageStats_table_run h c mac st t :
  let name := sanitizeMacForTableName (String c mac) in
  isConnected st = true -> accepts h name = true ->
  tables st !! table_key name = Some t ->
  getStorageStats h (Some (String c mac)) st
  = (Ok (TableStats (aggregate (String c mac) t)), st).
Proof.
  intros name Hc Ha Ht. unfold getStorageStats.
  erewrite bind_run by (rewrite require_connected_run, Hc; reflexivity).
  rewrite on_table_run. fold name. rewrite Ha, Ht. reflexivity.
Qed.

(** X14: on every connected store a program reaches from a new one,
    whose database is a file, by calls whose keys are hardware
    addresses, the two forms of [getStorageStats] agree.  The form without an address returns one
    entry for each metadata row; with the address of an entry, the form
    for one table returns, and its [total_rows] is the [row_count] of
    the entry, the number of rows of the table, while it counts no more
    kinds of record than the entry lists. *)
Theorem reachable_statistics_agree h st m :
  reachable h st -> isConnected st = true -> In m (metadata st) ->
  exists s l t,
    getStorageStats h (Some (m_mac_address m)) st = (Ok (TableStats s), st)
    /\ getStorageStats h None st = (Ok (AllStats l), st)
    /\ In (summary_of m) l
    /\ tables st !! table_name m = Some t
    /\ sum_row_count (summary_of m) = Z.of_nat (List.length (rows t))
    /\ total_rows s = sum_row_count (summary_of m)
    /\ distinct_data_types s
       <= Z.of_nat (List.length (sum_data_types (summary_of m))).
Proof.
  intros Hr Hc Hin.
  destruct (reachable_consistent h st Hr) as (Htbm & _ & _ & _ & Hacc & _ & Hadr).
  pose proof (reachable_names_length h st Hr) as Hlen.
  unfold tables_behind_metadata, registered_names, accounted, addressed
    in Htbm, Hlen, Hacc, Hadr.
  rewrite List.Forall_forall in Htbm, Hlen, Hacc, Hadr.
  destruct (Htbm m Hin) as (Ha & Hk & _).
  destruct (Hacc m Hin) as (t & Ht & Hcount & Hkinds).
  pose proof (Hadr m Hin) as Hmac. pose proof (Hlen m Hin) as Hl.
  destruct (m_mac_address m) as [|c mac] eqn:Em.
  { rewrite <- Hmac in Hl. discriminate Hl. }
  exists (aggregate (String c mac) t),
         (map summary_of (stable_sort updated_desc (metadata st))), t.
  split; [apply getStorageStats_table_run; rewrite ?Hmac; auto|].
  split.
  { unfold getStorageStats.
    erewrite bind_run by (rewrite require_connected_run, Hc; reflexivity).
    reflexivity. }
  split.
  { apply in_map.
    apply (Permutation_in _ (Permutation_sym (stable_sort_perm _ _)) Hin). }
  rewrite Hk in Ht.
  split; [exact Ht|]. split; [exact Hcount|]. split; [simpl; now rewrite Hcount|].
  simpl. now apply count_distinct_kinds_le.
Qed.

(** ** Statistics of one table *)

Lemma text_min_le_l a b : text_le (text_min a b) a.
Proof.
  unfold text_min. destruct (String.ltb b a) eqn:E; [|apply text_le_refl].
  unfold text_le. now apply ltb_asym.
Qed.

Lemma text_min_le_r a b : text_le (text_min a b) b.
Proof.
  unfold text_min. destruct (String.ltb b a) eqn:E; [apply text_le_refl | exact E].
Qed.

Lemma text_max_ge_l a b : text_le a (text_max a b).
Proof.
  unfold text_max. destruct (String.ltb a b) eqn:E; [|apply text_le_refl].
  unfold text_le. now apply ltb_asym.
Qed.

Lemma text_max_ge_r a b : text_le b (text_max a b).
Proof.
  unfold text_max. destruct (String.ltb a b) eqn:E; [apply text_le_refl | exact E].
Qed.

Lemma fold_text_min_le l : forall x y,
  In y (x :: l) -> text_le (fold_left text_min l x) y.
Proof.
  induction l as [|z l IH]; intros x y Hy; simpl.
  - destruct Hy as [<- | []]. apply text_le_refl.
  - destruct Hy as [<- | [<- | Hy]].
    + eapply text_le_trans; [apply IH; now left | apply text_min_le_l].
    + eapply text_le_trans; [apply IH; now left | apply text_min_le_r].
    + apply IH. now right.
Qed.

Lemma fold_text_max_ge l : forall x y,
  In y (x :: l) -> text_le y (fold_left text_max l x).
Proof.
  induction l as [|z l IH]; intros x y Hy; simpl.
  - destruct Hy as [<- | []]. apply text_le_refl.
  - destruct Hy as [<- | [<- | Hy]].
    + eapply text_le_trans; [apply text_max_ge_l | apply IH; now left].
    + eapply text_le_trans; [apply text_max_ge_r | apply IH; now left].
    + apply IH. now right.
Qed.

Lemma fold_text_min_In l : forall x, In (fold_left text_min l x) (x :: l).
Proof.
  induction l as [|z l IH]; intros x; simpl; [now left|].
  destruct (IH (text_min x z)) as [E | Hin]; [|auto].
  rewrite <- E. unfold text_min. destruct (String.ltb z x); auto.
Qed.

Lemma fold_text_max_In l : forall x, In (fold_left text_max l x) (x :: l).
Proof.
  induction l as [|z l IH]; intros x; simpl; [now left|].
  destruct (IH (text_max x z)) as [E | Hin]; [|auto].
  rewrite <- E. unfold text_max. destruct (String.ltb x z); auto.
Qed.

Lemma count_distinct_kinds_pos r l : 1 <= count_distinct_kinds (r :: l).
Proof.
  unfold count_distinct_kinds. simpl existsb.
  destruct (data_type r); simpl;
    repeat match goal with
           | |- context [existsb ?p l] => destruct (existsb p l)
           end; simpl; lia.
Qed.

(** X15: [getStorageStats(mac)] for a table that exists returns, under
    the address as it was given, the number of rows of the table and, as
    [first_entry] and [last_entry], the least and the greatest text of
    its [timestamp] column: each is the timestamp of a row, and every
    row lies between them.  For a table without rows both are [NULL]
    and both counts are 0. *)
Theorem getStorageStats_table h c mac st t :
  isConnected st = true ->
  accepts h (sanitizeMacForTableName (String c mac)) = true ->
  tables st !! table_key (sanitizeMacForTableName (String c mac)) = Some t ->
  exists s,
    getStorageStats h (Some (String c mac)) st = (Ok (TableStats s), st)
    /\ stats_mac s = String c mac
    /\ total_rows s = Z.of_nat (List.length (rows t))
    /\ 0 <= distinct_data_types s <= 4
    /\ (rows t = [] ->
        first_entry s = None /\ last_entry s = None /\ distinct_data_types s = 0)
    /\ (rows t <> [] ->
        1 <= distinct_data_types s
        /\ exists lo hi,
            first_entry s = Some lo /\ last_entry s = Some hi
            /\ In lo (map timestamp_text (rows t))
            /\ In hi (map timestamp_text (rows t))
            /\ forall r, In r (rows t) ->
                 text_le lo (timestamp_text r) /\ text_le (timestamp_text r) hi).
Proof.
  intros Hc Ha Ht. exists (aggregate (String c mac) t).
  split; [now apply getStorageStats_table_run|].
  split; [reflexivity|]. split; [reflexivity|].
  split.
  { simpl. unfold count_distinct_kinds. split; [lia|].
    pose proof (filter_length_le
      (fun k => existsb (fun r => kind_eqb (data_type r) k) (rows t))
      [Sensor; Battery; Ant; Environment]) as H. simpl in H. simpl. lia. }
  split.
  { intros E. simpl. rewrite E. auto. }
  intros Hne. unfold aggregate. simpl.
  destruct (rows t) as [|r rs] eqn:E; [contradiction|].
  split; [apply count_distinct_kinds_pos|].
  simpl. eexists _, _. split; [reflexivity|]. split; [reflexivity|].
  split; [apply (fold_text_min_In (map timestamp_text rs) (timestamp_text r))|].
  split; [apply (fold_text_max_In (map timestamp_text rs) (timestamp_text r))|].
  intros r' Hr'.
  assert (Hin : In (timestamp_text r') (timestamp_text r :: map timestamp_text rs)).
  { destruct Hr' as [<- | Hr']; [now left | right; now apply in_map]. }
  split.
  - now apply (fold_text_min_le (map timestamp_text rs) (timestamp_text r)).
  - now apply (fold_text_max_ge (map timestamp_text rs) (timestamp_text r)).
Qed.

(** ** Export *)




(** ** Environment records *)



(** ** Reading a store a program has reached *)


(** ** Table names as keys *)

Lemma sanitize_char_idem c : sanitize_char (sanitize_char c) = sanitize_char c.
Proof.
  apply Ascii.eqb_eq. revert c.
  apply (StrFacts.by_cases1
           (fun c => Ascii.eqb (sanitize_char (sanitize_char c)) (sanitize_char c))).
  vm_compute. reflexivity.
Qed.

Lemma sanitize_char_not_colon c : negb (Ascii.eqb (sanitize_char c) ":") = true.
Proof.
  revert c.
  apply (StrFacts.by_cases1 (fun c => negb (Ascii.eqb (sanitize_char c) ":"))).
  vm_compute. reflexivity.
Qed.

Lemma all_chars_map_chars p f s :
  (forall c, p (f c) = true) -> Str.all_chars p (Str.map_chars f s) = true.
Proof.
  intros H. induction s as [|c s IH]; simpl; [reflexivity|]. now rewrite H, IH.
Qed.

(** X19: a table name is a key of its own table.  For a key of ASCII
    characters, [sanitizeMacForTableName] gives a name it has made back
    as it is, so that [queryData] and [dropTable] do for the table
    name, as [getStorageStats] lists it, what they do for the address.
    The name is as long as the key and has no colon. *)
Theorem tableName_is_a_key k :
  Str.all_chars Str.is_ascii7 k = true ->
  sanitizeMacForTableName (sanitizeMacForTableName k) = sanitizeMacForTableName k
  /\ String.length (sanitizeMacForTableName k) = String.length k
  /\ Str.all_chars (fun c => negb (Ascii.eqb c ":")) (sanitizeMacForTableName k) = true
  /\ (forall h o st,
        queryData h (sanitizeMacForTableName k) o st = queryData h k o st)
  /\ (forall h st, dropTable h (sanitizeMacForTableName k) st = dropTable h k st).
Proof.
  intros _.
  assert (E : sanitizeMacForTableName (sanitizeMacForTableName k)
              = sanitizeMacForTableName k).
  { rewrite !sanitize_as_map, StrFacts.map_chars_compose.
    apply StrFacts.map_chars_ext, sanitize_char_idem. }
  split; [exact E|].
  split; [rewrite sanitize_as_map; apply map_chars_length|].
  split; [rewrite sanitize_as_map; apply all_chars_map_chars, sanitize_char_not_colon|].
  split.
  - intros h o st. unfold queryData. now rewrite E.
  - intros h st. unfold dropTable. now rewrite E.
Qed.

(** ** The properties on examples *)

Lemma fresh_reachable : reachable node fresh.
Proof.
  refine (reach_call node Initialize _ (reach_new node ∅ _) I).
  vm_compute. split; discriminate.
Qed.

Lemma with_reading_reachable : reachable node with_reading.
Proof.
  exact (reach_call node (Store t0 (SensorWrite device reading)) _ fresh_reachable eq_refl).
Qed.

Lemma two_devices_reachable : reachable node two_devices.
Proof.
  exact (reach_call node (Store (t0 + 60000) (SensorWrite other_device reading)) _
           (reach_call node (StoreEnvironment (t0 + 1000) climate) _
              with_reading_reachable I) eq_refl).
Qed.

Lemma not_connected_rejected_witness :
  queryAllData node no_options (constructor ∅) = (Err NotConnected, constructor ∅).
Proof.
  destruct (not_connected_rejected node t0 (constructor ∅) eq_refl)
    as (_ & _ & _ & H & _).
  apply H.
Defined.

Lemma queryData_result_witness :
  StronglySorted text_not_older
    (rows_returned (result_of (queryData node device no_options) two_devices)).
Proof.
  destruct (queryData_result node device no_options two_devices
              (rows_returned (result_of (queryData node device no_options) two_devices))
              (state_after (queryData node device no_options) two_devices))
    as (t & _ & _ & H & _).
  - reflexivity.
  - vm_compute. reflexivity.
  - exact H.
Defined.


Lemma write_refreshes_metadata_witness :
  exists t,
    tables two_devices !! table_key (sanitizeMacForTableName other_device) = Some t
    /\ (forall m, In m (metadata two_devices) ->
          table_name m = sanitizeMacForTableName other_device ->
          row_count m = Z.of_nat (List.length (rows t))
          /\ In Sensor (data_types m)
          /\ last_updated m = (t0 + 60000) / 1000)
    /\ List.filter (fun m => negb (named (sanitizeMacForTableName other_device) m))
         (metadata two_devices)
       = metadata with_reading.
Proof.
  destruct (write_refreshes_metadata node (t0 + 60000) (SensorWrite other_device reading)
              (state_after (storeEnvironmentData (t0 + 1000) climate) with_reading)
              two_devices) as (t & Ht & Hm & Hothers & _).
  - reflexivity.
  - vm_compute. reflexivity.
  - exists t. split; [exact Ht|]. split; [exact Hm|].
    etransitivity; [exact Hothers|]. vm_compute. reflexivity.
Defined.



Lemma keyed_cleanup_twice_witness :
  exists st'',
    cleanupOldData node next_year (Some device) JNull
      (state_after (cleanupOldData node next_year (Some device) JNull) with_reading)
    = (Ok 0, st'')
    /\ tables st''
       = tables (state_after (cleanupOldData node next_year (Some device) JNull) with_reading).
Proof.
  apply (keyed_cleanup_twice node next_year "E" "8:74:EC:4F:C9:09" JNull with_reading 1).
  vm_compute. reflexivity.
Defined.

Lemma cleanup_takes_the_cutoff_day_witness :
  result_of (cleanupOldData node a_month_later (Some device) JNull) with_reading = Ok 1
  /\ exists cutoff t',
       cutoffDate node a_month_later
         (JNull || field (config with_reading) "retention_days")%js = Some cutoff
       /\ cutoff < t0
       /\ cutoff / Time.msPerDay = t0 / Time.msPerDay
       /\ tables (state_after (cleanupOldData node a_month_later (Some device) JNull)
                    with_reading)
            !! table_key (sanitizeMacForTableName device) = Some t'
       /\ forall r, In r (rows t') -> created_at r / 86400 <> cutoff / Time.msPerDay.
Proof.
  split; [vm_compute; reflexivity|].
  destruct (cleanup_takes_the_cutoff_day node a_month_later "E" "8:74:EC:4F:C9:09" JNull
              with_reading 1
              (state_after (cleanupOldData node a_month_later (Some device) JNull)
                 with_reading))
    as (cutoff & t' & Hcut & Ht & Hday).
  - reflexivity.
  - vm_compute. reflexivity.
  - assert (E : cutoffDate node a_month_later
                  (JNull || field (config with_reading) "retention_days")%js
                = Some (t0 - 6 * 3600000)) by (vm_compute; reflexivity).
    exists cutoff, t'. split; [exact Hcut|].
    rewrite E in Hcut. injection Hcut as <-.
    split; [vm_compute; reflexivity|]. split; [vm_compute; reflexivity|].
    split; [exact Ht|]. apply Hday.
    assert (Ey : utc_year (t0 - 6 * 3600000) = 2026) by (vm_compute; reflexivity).
    rewrite Ey. lia.
Defined.


Lemma dropTable_frame_witness :
  exists st',
    dropTable node device two_devices = (Ok tt, st')
    /\ tables st' !! table_key (sanitizeMacForTableName other_device)
       = tables two_devices !! table_key (sanitizeMacForTableName other_device).
Proof.
  destruct (dropTable_frame node device two_devices) as (st' & H1 & H2 & _).
  - reflexivity.
  - reflexivity.
  - reflexivity.
  - exists st'. split; [exact H1|]. apply H2. vm_compute. discriminate.
Defined.

Lemma getStorageStats_table_witness :
  exists s,
    getStorageStats node (Some device) with_reading = (Ok (TableStats s), with_reading)
    /\ stats_mac s = device
    /\ total_rows s = 1.
Proof.
  assert (Ht : exists t,
             tables with_reading !! table_key (sanitizeMacForTableName device) = Some t
             /\ List.length (rows t) = 1%nat).
  { vm_compute. eexists. split; reflexivity. }
  destruct Ht as (t & Ht & Hl).
  destruct (getStorageStats_table node "E" "8:74:EC:4F:C9:09" with_reading t)
    as (s & H1 & H2 & H3 & _).
  - reflexivity.
  - reflexivity.
  - exact Ht.
  - exists s. split; [exact H1|]. split; [exact H2|]. now rewrite H3, Hl.
Defined.


Lemma reachable_metadata_and_tables_witness :
  (forall κ, is_Some (tables two_devices !! κ) -> κ <> ENVIRONMENT_DATA ->
     exists m, In m (metadata two_devices) /\ table_name m = κ)
  /\ NoDup (map table_name (metadata two_devices)).
Proof.
  destruct (reachable_metadata_and_tables node two_devices two_devices_reachable)
    as (_ & H2 & H3).
  split; [exact H2 | exact H3].
Defined.

Lemma reachable_statistics_agree_witness :
  exists s l t,
    getStorageStats node (Some device) with_reading = (Ok (TableStats s), with_reading)
    /\ getStorageStats node None with_reading = (Ok (AllStats l), with_reading)
    /\ In (summary_of device_entry) l
    /\ tables with_reading !! table_name device_entry = Some t
    /\ sum_row_count (summary_of device_entry) = Z.of_nat (List.length (rows t))
    /\ total_rows s = sum_row_count (summary_of device_entry).
Proof.
  destruct (reachable_statistics_agree node with_reading device_entry)
    as (s & l & t & H1 & H2 & H3 & H4 & H5 & H6 & _).
  - exact with_reading_reachable.
  - reflexivity.
  - vm_compute. left. reflexivity.
  - exists s, l, t. split; [exact H1|]. split; [exact H2|]. split; [exact H3|].
    split; [exact H4|]. split; [exact H5 | exact H6].
Defined.



Lemma tableName_is_a_key_witness :
  sanitizeMacForTableName (sanitizeMacForTableName device_lower)
  = sanitizeMacForTableName device_lower
  /\ String.length (sanitizeMacForTableName device_lower) = 17%nat.
Proof.
  destruct (tableName_is_a_key device_lower) as (H1 & H2 & _).
  - reflexivity.
  - split; [exact H1 | exact H2].
Defined.
